(** * FlightMap: great-circle arcs and antimeridian segmentation

    A shallow embedding of the two pure functions of the [FlightMap]
    module, [generateArc] and [handleAntimeridian].

    JavaScript numbers are IEEE 754 binary64 values; they are embedded as
    Rocq's primitive [float], whose [+ - * /], [sqrt], [abs] and comparisons
    are the IEEE operations that JavaScript uses.  A point is the two-element
    array [[lat, lng]] of the source. *)

From Stdlib Require Import ZArith NArith Floats Lia Bool String Ascii DecimalNat.
From stdpp Require Import base list gmap.

Set Default Proof Using "Type".

(** ** Points *)

(** The array [[lat, lng]]: index 0 is the latitude, index 1 the longitude,
    both in degrees. *)
Record Point : Type := mkPoint { lat : float; lng : float }.

(** ** Counted [for] loops

    [for (let i = start; i < start + count; i++) body], threading the
    variables that the body assigns as a state of type [St].  The counters
    of the source are integers far below [2^53], where Number arithmetic on
    them is exact; they are embedded as [nat]. *)
Fixpoint for_loop {St : Type} (count start : nat) (body : nat → St → St) (s : St) : St :=
  match count with
  | O => s
  | S count' => for_loop count' (S start) body (body start s)
  end.

(** ** The [Math] object

    [Math.sqrt] and [Math.abs] are the IEEE operations.  ECMAScript leaves
    [Math.sin], [Math.cos], [Math.asin], [Math.atan2] and [Math.pow]
    implementation-approximated and only fixes their values at special
    arguments, so the embedding takes them as a parameter [lib] and states
    what it relies on as [spec]. *)

Module JSMath.
Local Open Scope float_scope.

(** [Math.PI], the binary64 value closest to pi (3.141592653589793). *)
Definition PI : float := 0x1.921fb54442d18p+1.

Record lib : Type := mkLib {
  sin : float → float;
  cos : float → float;
  asin : float → float;
  atan2 : float → float → float;
  pow : float → float → float
}.

(** The facts about [Math] used below: the results at [+0] that ECMAScript
    prescribes, and a cosine of a finite number that lies in [[-1, 1]]. *)
Record spec (M : lib) : Prop := mkSpec {
  sin_zero : sin M 0 = 0;
  asin_zero : asin M 0 = 0;
  pow_zero_two : pow M 0 2 = 0;
  cos_range : ∀ x : float, is_finite x = true → (abs (cos M x) <=? 1) = true
}.

(** The Number holding the integer [n] (exact below [2^53]); the loop
    counter [i] and [numPoints] are such integers. *)
Definition number (n : nat) : float :=
  SF2Prim (binary_normalize prec emax (Z.of_nat n) 0 false).

(** *** A small concrete library

    Truncated Taylor series, accurate only near the origin.  It shows that
    [spec] is satisfiable and lets [generateArc] run on concrete inputs. *)
Definition clamp (y : float) : float :=
  if y <=? 1 then (if -1 <=? y then y else -1) else 1.

Definition taylor_sin (x : float) : float :=
  x * (1 - x * x / 6 * (1 - x * x / 20 * (1 - x * x / 42))).

Definition taylor_cos (x : float) : float :=
  clamp (1 - x * x / 2 * (1 - x * x / 12 * (1 - x * x / 30))).

Definition taylor_asin (x : float) : float :=
  x * (1 + x * x / 6 * (1 + x * x * 9 / 20)).

Definition taylor_atan2 (y x : float) : float :=
  let t := y / x in t * (1 - t * t / 3 * (1 - t * t * 3 / 5)).

Definition taylor : lib :=
  mkLib taylor_sin taylor_cos taylor_asin taylor_atan2 (λ x _, x * x).

End JSMath.

(** ** Magnitude bounds on binary64 values *)

Module FloatBounds.

(** Zero, or finite with exponent at most [k]. *)
Definition SFbelow (k : Z) (x : spec_float) : Prop :=
  match x with
  | S754_zero _ => True
  | S754_finite _ _ e => (e ≤ k)%Z
  | _ => False
  end.

Definition SFsign (x : spec_float) : option bool :=
  match x with
  | S754_zero s | S754_finite s _ _ | S754_infinity s => Some s
  | S754_nan => None
  end.

Definition below (k : Z) (x : float) : Prop := SFbelow k (Prim2SF x).

Definition sign_of (x : float) : option bool := SFsign (Prim2SF x).

End FloatBounds.

(** ** handleAntimeridian *)

Module Antimeridian.

(** [Math.abs(point[1] - nextPoint[1]) > 180]. *)
Definition lngDiff (point nextPoint : Point) : float :=
  abs (lng point - lng nextPoint).

Definition crossing (point nextPoint : Point) : bool :=
  (180 <? lngDiff point nextPoint)%float.

(** The two variables of the function: [segments] and [currentSegment]. *)
Record state : Type := mkState {
  segments : list (list Point);
  currentSegment : list Point
}.

(** One iteration of the loop body at index [i].  [points[i]] is always in
    range inside the loop, so the [None] branches are never taken. *)
Definition loop_body (points : list Point) (i : nat) (st : state) : state :=
  match points !! i with
  | None => st
  | Some point =>
      let cur := currentSegment st ++ [point] in
      if (Z.of_nat i <? Z.of_nat (length points) - 1)%Z then
        match points !! (i + 1)%nat with
        | None => mkState (segments st) cur
        | Some nextPoint =>
            if crossing point nextPoint
            then mkState (segments st ++ [cur]) []
            else mkState (segments st) cur
        end
      else mkState (segments st) cur
  end.

Definition handleAntimeridian (points : list Point) : list (list Point) :=
  let st := for_loop (length points) 0 (loop_body points) (mkState [] []) in
  if (0 <? Z.of_nat (length (currentSegment st)))%Z
  then segments st ++ [currentSegment st]
  else segments st.

(** *** A recursive characterisation

    [runs cur pts] is what the loop produces from a position where
    [cur] is the current segment and [pts] are the points still to visit. *)
Fixpoint runs (cur pts : list Point) : list (list Point) :=
  match pts with
  | [] => match cur with [] => [] | _ => [cur] end
  | p :: rest =>
      match rest with
      | [] => [cur ++ [p]]
      | q :: _ =>
          if crossing p q then (cur ++ [p]) :: runs [] rest
          else runs (cur ++ [p]) rest
      end
  end.

(** No adjacent pair of [s] crosses the antimeridian. *)
Definition no_crossing (s : list Point) : Prop :=
  ∀ (i : nat) (p q : Point),
    s !! i = Some p → s !! (i + 1)%nat = Some q → crossing p q = false.

(** Some adjacent pair of [s] crosses the antimeridian. *)
Definition has_crossing (s : list Point) : Prop :=
  ∃ (i : nat) (p q : Point),
    s !! i = Some p ∧ s !! (i + 1)%nat = Some q ∧ crossing p q = true.

End Antimeridian.

(** ** generateArc *)

Module GreatCircle.
Import JSMath.
Local Open Scope float_scope.

(** A GeoPoint of the specification: latitude in [[-90, 90]] and longitude
    in [[-180, 180]]. *)
Definition valid (p : Point) : bool :=
  (-90 <=? lat p) && (lat p <=? 90) && (-180 <=? lng p) && (lng p <=? 180).

Section WithMath.
Context (M : lib).

(** The haversine central angle [d]. *)
Definition centralAngle (lat1 lng1 lat2 lng2 : float) : float :=
  2 * asin M (sqrt (
    pow M (sin M ((lat1 - lat2) / 2)) 2 +
    cos M lat1 * cos M lat2 * pow M (sin M ((lng1 - lng2) / 2)) 2)).

(** The interpolation weights [A] and [B]. *)
Definition weightA (d f : float) : float := sin M ((1 - f) * d) / sin M d.
Definition weightB (d f : float) : float := sin M (f * d) / sin M d.

(** The point pushed when [d] is not [0]. *)
Definition interpolate (lat1 lng1 lat2 lng2 d f : float) : Point :=
  let A := weightA d f in
  let B := weightB d f in
  let x := A * cos M lat1 * cos M lng1 + B * cos M lat2 * cos M lng2 in
  let y := A * cos M lat1 * sin M lng1 + B * cos M lat2 * sin M lng2 in
  let z := A * sin M lat1 + B * sin M lat2 in
  let lat := atan2 M z (sqrt (x * x + y * y)) * 180 / PI in
  let lng := atan2 M y x * 180 / PI in
  mkPoint lat lng.

(** One iteration of the loop: [points.push(...)], with the [continue] of
    the degenerate branch. *)
Definition loop_body (start : Point) (lat1 lng1 lat2 lng2 : float)
    (numPoints i : nat) (points : list Point) : list Point :=
  let f := number i / number numPoints in
  let d := centralAngle lat1 lng1 lat2 lng2 in
  if d =? 0 then points ++ [mkPoint (lat start) (lng start)]
  else points ++ [interpolate lat1 lng1 lat2 lng2 d f].

Definition generateArc (start end_ : Point) (numPoints : nat) : list Point :=
  let lat1 := lat start * PI / 180 in
  let lng1 := lng start * PI / 180 in
  let lat2 := lat end_ * PI / 180 in
  let lng2 := lng end_ * PI / 180 in
  for_loop (S numPoints) 0 (loop_body start lat1 lng1 lat2 lng2 numPoints) [].

(** The guard [d === 0] for the two endpoints. *)
Definition degenerate (start end_ : Point) : bool :=
  centralAngle (lat start * PI / 180) (lng start * PI / 180)
               (lat end_ * PI / 180) (lng end_ * PI / 180) =? 0.

(** The point that iteration [i] pushes. *)
Definition arcPoint (start end_ : Point) (numPoints i : nat) : Point :=
  let lat1 := lat start * PI / 180 in
  let lng1 := lng start * PI / 180 in
  let lat2 := lat end_ * PI / 180 in
  let lng2 := lng end_ * PI / 180 in
  if degenerate start end_ then mkPoint (lat start) (lng start)
  else interpolate lat1 lng1 lat2 lng2
         (centralAngle lat1 lng1 lat2 lng2) (number i / number numPoints).

End WithMath.

(** The path that [drawFlightPath] draws: the arc with the default
    [numPoints = 100], split at the antimeridian. *)
Definition flightPath (M : lib) (departure arrival : Point) : list (list Point) :=
  Antimeridian.handleAntimeridian (generateArc M departure arrival 100).

End GreatCircle.

(** ** Counting crossings *)

Module Segmentation.
Import Antimeridian.

(** The number of consecutive pairs of a path that cross the antimeridian. *)
Fixpoint crossings (points : list Point) : nat :=
  match points with
  | p :: ((q :: _) as rest) => (if crossing p q then 1 else 0) + crossings rest
  | _ => 0
  end.

End Segmentation.

(** ** Strings

    A JavaScript string is a sequence of UTF-16 code units. *)

Module JSString.
Abbreviation jsstring := (list N).

(** An ASCII literal as a string. *)
Definition str (s : string) : jsstring :=
  (λ a, N_of_ascii a) <$> list_ascii_of_string s.

(** The code units that [String.prototype.trim] strips: the WhiteSpace and
    LineTerminator code points of ECMAScript. *)
Definition isWhiteSpace (c : N) : bool :=
  ((9 <=? c) && (c <=? 13) || (c =? 32) || (c =? 160) || (c =? 5760) ||
   (8192 <=? c) && (c <=? 8202) || (c =? 8232) || (c =? 8233) ||
   (c =? 8239) || (c =? 8287) || (c =? 12288) || (c =? 65279))%N.

Fixpoint trimStart (s : jsstring) : jsstring :=
  match s with
  | [] => []
  | c :: rest => if isWhiteSpace c then trimStart rest else s
  end.

Definition trimEnd (s : jsstring) : jsstring := reverse (trimStart (reverse s)).

Definition trim (s : jsstring) : jsstring := trimEnd (trimStart s).

(** [s.split(', ')]: [cur] is the part being scanned. *)
Fixpoint split_from (cur s : jsstring) : list jsstring :=
  match s with
  | [] => [cur]
  | c :: rest =>
      match rest with
      | d :: rest' =>
          if ((c =? 44) && (d =? 32))%N then cur :: split_from [] rest'
          else split_from (cur ++ [c]) rest
      | [] => [cur ++ [c]]
      end
  end.

Definition split (s : jsstring) : list jsstring := split_from [] s.

(** [parts.join(', ')]. *)
Fixpoint join (parts : list jsstring) : jsstring :=
  match parts with
  | [] => []
  | [p] => p
  | p :: rest => p ++ str ", " ++ join rest
  end.

(** The surrogate code units of UTF-16. *)
Definition isLeadingSurrogate (c : N) : bool := ((55296 <=? c) && (c <=? 56319))%N.
Definition isTrailingSurrogate (c : N) : bool := ((56320 <=? c) && (c <=? 57343))%N.

(** Whether [encodeURIComponent(s)] returns: it throws a [URIError] when
    [s] holds a surrogate that is not part of a pair. *)
Fixpoint isWellFormed (s : jsstring) : bool :=
  match s with
  | [] => true
  | c :: rest =>
      if isLeadingSurrogate c then
        match rest with
        | d :: rest' => isTrailingSurrogate d && isWellFormed rest'
        | [] => false
        end
      else negb (isTrailingSurrogate c) && isWellFormed rest
  end.

(** [", "] occurs nowhere in [s]. *)
Fixpoint no_separator (s : jsstring) : bool :=
  match s with
  | c :: ((d :: _) as rest) => negb ((c =? 44) && (d =? 32))%N && no_separator rest
  | _ => true
  end.

End JSString.

(** ** The stateful part of FlightMap

    The fields [map], [markers] and [polyline] are the state.  Leaflet is
    not part of the repository: every call into it that returns is
    recorded, in order, in [calls].  A call on the [null] map throws.  A
    call that is given coordinates throws when Leaflet refuses them: it
    refuses a NaN latitude or longitude, and what else it refuses is the
    parameter [accepts].  The calls without coordinates ([L.map], the tile
    layer, [remove]) are taken to return. *)

Module FlightMapState.
Import JSString JSMath GreatCircle Antimeridian.

(** The argument objects [{lat, lng, code, city}] of [drawFlightPath]. *)
Record Airport : Type := mkAirport {
  a_lat : float;
  a_lng : float;
  a_code : jsstring;
  a_city : jsstring
}.

(** What [createIcon(type)] computes: the glyph name and the type that
    go into the icon's html. *)
Record Icon : Type := mkIcon { icon_type : jsstring; icon_glyph : jsstring }.

(** A marker [L.marker([lat, lng], {icon})] with its popup label. *)
Record Marker : Type := mkMarker {
  m_position : Point;
  m_icon : Icon;
  m_label : jsstring
}.

(** Calls into Leaflet. *)
Inductive call : Type :=
  | L_map (containerId : jsstring)
  | tileLayer_addTo
  | map_remove
  | marker_addTo (m : Marker)
  | marker_remove (m : Marker)
  | polyline_addTo (segment : list Point)
  | polyline_remove (line : list Point)
  | map_fitBounds (corner1 corner2 : Point).

Record state : Type := mkState {
  map : option jsstring;
  markers : list Marker;
  polyline : option (list Point);
  calls : list call
}.

(** The object literal: [map: null, markers: [], polyline: null]. *)
Definition initial : state := mkState None [] None [].

(** [init(containerId)]: an existing map is removed first. *)
Definition init (containerId : jsstring) (st : state) : state :=
  let removed :=
    match map st with
    | Some _ => calls st ++ [map_remove]
    | None => calls st
    end in
  mkState (Some containerId) [] None
          (removed ++ [L_map containerId; tileLayer_addTo]).

(** Leaflet's check of a coordinate pair: [L.latLng] throws "Invalid LatLng
    object" when the latitude or the longitude is NaN. *)
Definition validLatLng (p : Point) : bool :=
  negb (is_nan (lat p)) && negb (is_nan (lng p)).

(** The check applied to the coordinates a call is given. *)
Definition validCall (c : call) : bool :=
  match c with
  | marker_addTo m => validLatLng (m_position m)
  | polyline_addTo segment => forallb validLatLng segment
  | map_fitBounds corner1 corner2 => validLatLng corner1 && validLatLng corner2
  | _ => true
  end.

(** [createIcon(type)] (its [color] is computed and not used). *)
Definition createIcon (type : jsstring) : Icon :=
  let icon :=
    if bool_decide (type = str "departure") then str "flight_takeoff"
    else str "flight_land" in
  mkIcon type icon.

Section WithLeaflet.
(** What Leaflet accepts of the calls whose coordinates are valid. *)
Context (accepts : call → bool).

(** Whether Leaflet carries a call out; it throws otherwise. *)
Definition performs (c : call) : bool := validCall c && accepts c.

(** [addMarker(lat, lng, type, label)]; [None] is an exception: of
    [L.marker], of [addTo(null)] or of [bindPopup].  The marker is pushed
    last, so a call that throws leaves [markers] as it was. *)
Definition addMarker (lat lng : float) (type label : jsstring) (st : state)
    : option state :=
  let marker := mkMarker (mkPoint lat lng) (createIcon type) label in
  if performs (marker_addTo marker) then
    match map st with
    | None => None
    | Some _ =>
        Some (mkState (map st) (markers st ++ [marker]) (polyline st)
                      (calls st ++ [marker_addTo marker]))
    end
  else None.

(** [`${airport.city} (${airport.code})`]. *)
Definition label (airport : Airport) : jsstring :=
  a_city airport ++ str " (" ++ a_code airport ++ str ")".

(** [segments.forEach(segment => L.polyline(segment, ...).addTo(this.map))];
    [None] is an exception of [L.polyline] or of [addTo]. *)
Fixpoint drawSegments (segments : list (list Point)) (st : state) : option state :=
  match segments with
  | [] => Some st
  | segment :: rest =>
      if performs (polyline_addTo segment) then
        match map st with
        | None => None
        | Some _ =>
            drawSegments rest
              (mkState (map st) (markers st) (polyline st)
                       (calls st ++ [polyline_addTo segment]))
        end
      else None
  end.

(** [drawFlightPath(departure, arrival)]: the two markers, one polyline
    per segment of the arc, then [fitBounds] on the two endpoints.  Nothing
    is caught: the first exception ends the call ([None]; what the call had
    pushed and drawn before is not kept in the model). *)
Definition drawFlightPath (M : lib) (departure arrival : Airport) (st : state)
    : option state :=
  st ← addMarker (a_lat departure) (a_lng departure) (str "departure")
                 (label departure) st;
  st ← addMarker (a_lat arrival) (a_lng arrival) (str "arrival")
                 (label arrival) st;
  let arcPoints :=
    generateArc M (mkPoint (a_lat departure) (a_lng departure))
                  (mkPoint (a_lat arrival) (a_lng arrival)) 100 in
  let segments := handleAntimeridian arcPoints in
  st ← drawSegments segments st;
  let bounds :=
    map_fitBounds (mkPoint (a_lat departure) (a_lng departure))
                  (mkPoint (a_lat arrival) (a_lng arrival)) in
  if performs bounds then
    match map st with
    | None => None
    | Some _ =>
        Some (mkState (map st) (markers st) (polyline st) (calls st ++ [bounds]))
    end
  else None.

(** [clear()]. *)
Definition clear (st : state) : state :=
  let removed := calls st ++ (marker_remove <$> markers st) in
  match polyline st with
  | Some line => mkState (map st) [] None (removed ++ [polyline_remove line])
  | None => mkState (map st) [] None removed
  end.

(** [destroy()]. *)
Definition destroy (st : state) : state :=
  match map st with
  | Some _ => mkState None [] None (calls st ++ [map_remove])
  | None => mkState None [] None (calls st)
  end.

(** The polylines added by a sequence of calls, in order. *)
Definition drawn (cs : list call) : list (list Point) :=
  omap (λ c, match c with polyline_addTo segment => Some segment | _ => None end) cs.

(** How many calls of a kind a trace holds. *)
Fixpoint count (kind : call → bool) (cs : list call) : nat :=
  match cs with
  | [] => 0
  | c :: rest => (if kind c then 1 else 0) + count kind rest
  end.

Definition is_L_map (c : call) : bool :=
  match c with L_map _ => true | _ => false end.

Definition is_map_remove (c : call) : bool :=
  match c with map_remove => true | _ => false end.

Definition is_polyline_remove (c : call) : bool :=
  match c with polyline_remove _ => true | _ => false end.

(** [1] when the object holds a map, [0] when [map] is [null]. *)
Definition live (st : state) : nat :=
  match map st with Some _ => 1 | None => 0 end.

(** What holds of every reachable state. *)
Definition invariant (st : state) : Prop :=
  polyline st = None ∧
  (map st = None → markers st = []) ∧
  count is_polyline_remove (calls st) = 0 ∧
  count is_L_map (calls st) = count is_map_remove (calls st) + live st.

(** The methods a user of the object can call. *)
Inductive method : Type :=
  | call_init (containerId : jsstring)
  | call_addMarker (lat lng : float) (type label : jsstring)
  | call_drawFlightPath (departure arrival : Airport)
  | call_clear
  | call_destroy.

(** One method call; [None] when it throws. *)
Definition run (M : lib) (m : method) (st : state) : option state :=
  match m with
  | call_init containerId => Some (init containerId st)
  | call_addMarker lat lng type label => addMarker lat lng type label st
  | call_drawFlightPath departure arrival => drawFlightPath M departure arrival st
  | call_clear => Some (clear st)
  | call_destroy => Some (destroy st)
  end.

(** The states reached from the object literal by calls that return. *)
Inductive reachable (M : lib) : state → Prop :=
  | reachable_initial : reachable M initial
  | reachable_run m st st' :
      reachable M st → run M m st = Some st' → reachable M st'.

End WithLeaflet.

End FlightMapState.

(** ** WikipediaAPI

    The cache and the requests sent are the state; what a [fetch] answers
    is an input of each call. *)

Module WikipediaAPI.
Import JSString.

(** [WikipediaAPI.truncate(text, maxLength)]; [!text] holds for the empty
    string.  [substring(0, maxLength)] keeps the first [maxLength] code
    units. *)
Definition truncate (text : jsstring) (maxLength : nat) : jsstring :=
  if bool_decide (text = []) || (length text <=? maxLength)%nat then text
  else trim (take maxLength text) ++ str "...".

(** The outcome of the [fetch]: [Failed] when [fetch] rejects, the status
    is not ok or the body is not JSON; otherwise [data.extract || '']
    ([[]] when the field is missing). *)
Inductive response : Type :=
  | Failed
  | Json (extract : jsstring).

Record state : Type := mkState {
  cache : gmap jsstring jsstring;
  requests : list jsstring
}.

Definition initial : state := mkState ∅ [].

(** [fetchCitySummary(cityName)]; [resp] is what the request would be
    answered if it is sent, [None] is [null].  A request is recorded by the
    city name its url is built from.  When [encodeURIComponent] throws,
    the [catch] returns [null] before anything is sent. *)
Definition fetchCitySummary (resp : response) (cityName : jsstring) (st : state)
    : option jsstring * state :=
  match cache st !! cityName with
  | Some summary => (Some summary, st)
  | None =>
      if isWellFormed cityName then
        let sent := requests st ++ [cityName] in
        match resp with
        | Failed => (None, mkState (cache st) sent)
        | Json summary =>
            (Some summary, mkState (<[cityName := summary]> (cache st)) sent)
        end
      else (None, st)
  end.


End WikipediaAPI.

(** ** AirportSearch

    The object's fields and the requests it has sent are the state; what a
    [fetch] answers is an input of each call. *)

Module AirportSearch.
Import JSString.

(** [AirportSearch.extractCityFromDisplay(displayName)]; [None] is a missing
    ([undefined]) name. *)
Definition extractCityFromDisplay (displayName : option jsstring) : jsstring :=
  match displayName with
  | None | Some [] => []
  | Some s =>
      let parts := split s in
      if (1 <? length parts)%nat then default [] (parts !! 1%nat)
      else default [] (parts !! 0%nat)
  end.

(** [AirportSearch.extractCountryFromDisplay(displayName)]. *)
Definition extractCountryFromDisplay (displayName : option jsstring) : jsstring :=
  match displayName with
  | None | Some [] => []
  | Some s =>
      let parts := split s in
      if (0 <? length parts)%nat then default [] (parts !! (length parts - 1)%nat)
      else []
  end.

(** One entry of [data/airports.json]; a missing field is the empty string
    (both are falsy for [||]). *)
Record LocalData : Type := mkLocalData {
  ld_city : jsstring;
  ld_cityEn : jsstring;
  ld_country : jsstring
}.

(** One Nominatim search result. *)
Record NominatimResult : Type := mkResult {
  r_lat : jsstring;
  r_lon : jsstring;
  r_display_name : option jsstring
}.

(** The outcome of the [fetch] of [searchAirport]: [Failed] when [fetch]
    rejects, the status is not ok, the body is not JSON or its first result
    cannot be read, all of which throw after the request was sent;
    otherwise the parsed array ([[]] also stands for a body that is no
    non-empty array). *)
Inductive response : Type :=
  | Failed
  | Json (data : list NominatimResult).

Record AirportInfo : Type := mkInfo {
  info_lat : float;
  info_lng : float;
  info_city : jsstring;
  info_cityEn : jsstring;
  info_country : jsstring
}.

Record state : Type := mkState {
  cache : gmap jsstring (option AirportInfo);
  cityNames : gmap jsstring LocalData;
  requests : list jsstring
}.

(** The object as the script creates it. *)
Definition initial : state := mkState ∅ ∅ [].

(** [a || b] on strings. *)
Definition orElse (a b : jsstring) : jsstring :=
  match a with [] => b | _ => a end.

Section WithHost.
(** [String.prototype.toUpperCase] and [parseFloat] of the host. *)
Context (toUpperCase : jsstring → jsstring) (parseFloat : jsstring → float).

(** [init()]: [names] is the parsed [data/airports.json], [None] when
    loading it failed. *)
Definition init (names : option (gmap jsstring LocalData)) (st : state) : state :=
  mkState (cache st) (default ∅ names) (requests st).

(** [code.toUpperCase().trim()]. *)
Definition normalize (code : jsstring) : jsstring := trim (toUpperCase code).

(** The query of the request, [`${codeUpper} airport`]. *)
Definition query (codeUpper : jsstring) : jsstring := codeUpper ++ str " airport".

Definition airportInfo (st : state) (codeUpper : jsstring) (result : NominatimResult)
    : AirportInfo :=
  let localData := cityNames st !! codeUpper in
  mkInfo
    (parseFloat (r_lat result))
    (parseFloat (r_lon result))
    (orElse (from_option ld_city [] localData)
            (extractCityFromDisplay (r_display_name result)))
    (orElse (from_option ld_cityEn [] localData) [])
    (orElse (from_option ld_country [] localData)
            (extractCountryFromDisplay (r_display_name result))).

(** [searchAirport(code)]; [resp] is what the request would be answered if
    it is sent.  [None] is [null].  A request is recorded by its query, of
    which the url is built; when [encodeURIComponent] throws, the [catch]
    returns [null] before anything is sent. *)
Definition searchAirport (resp : response) (code : jsstring) (st : state)
    : option AirportInfo * state :=
  match code with
  | [] => (None, st)
  | _ =>
      let codeUpper := normalize code in
      match cache st !! codeUpper with
      | Some cached => (cached, st)
      | None =>
          if isWellFormed (query codeUpper) then
            let sent := requests st ++ [query codeUpper] in
            match resp with
            | Failed => (None, mkState (cache st) (cityNames st) sent)
            | Json (result :: _) =>
                let info := airportInfo st codeUpper result in
                (Some info,
                 mkState (<[codeUpper := Some info]> (cache st)) (cityNames st) sent)
            | Json [] =>
                (None, mkState (<[codeUpper := None]> (cache st)) (cityNames st) sent)
            end
          else (None, st)
      end
  end.

(** Calls of [searchAirport] one after the other, each with the answer its
    request would get. *)
Definition searches (later : list (response * jsstring)) (st : state) : state :=
  foldl (λ st call, (searchAirport call.1 call.2 st).2) st later.

(** [searchBothAirports(departureCode, arrivalCode)]: the two lookups one
    after the other. *)
Definition searchBothAirports (resp1 resp2 : response)
    (departureCode arrivalCode : jsstring) (st : state)
    : (option AirportInfo * option AirportInfo) * state :=
  let '(departure, st1) := searchAirport resp1 departureCode st in
  let '(arrival, st2) := searchAirport resp2 arrivalCode st1 in
  ((departure, arrival), st2).

(** [getCityNameForWikipedia(code, fallbackPlace)]. *)
Definition getCityNameForWikipedia (code fallbackPlace : jsstring) (st : state)
    : jsstring :=
  let codeUpper := normalize code in
  match from_option ld_city [] (cityNames st !! codeUpper) with
  | [] =>
      match cache st !! codeUpper with
      | Some (Some cached) =>
          match info_city cached with
          | [] => fallbackPlace
          | city => city
          end
      | _ => fallbackPlace
      end
  | city => city
  end.

(** The states the object goes through once [init] has loaded the city
    names: only [searchAirport] changes it. *)
Inductive reachable (names : gmap jsstring LocalData) : state → Prop :=
  | reachable_loaded : reachable names (init (Some names) initial)
  | reachable_search resp code st :
      reachable names st → reachable names (searchAirport resp code st).2.

End WithHost.

(** In a reachable state the city of a cached airport is the local city
    name whenever [airports.json] has one. *)
Definition consistent (names : gmap jsstring LocalData) (st : state) : Prop :=
  cityNames st = names ∧
  ∀ key info ld,
    cache st !! key = Some (Some info) → names !! key = Some ld →
    ld_city ld ≠ [] → info_city info = ld_city ld.

End AirportSearch.

(** ** The date selects of the search form *)

Module App.
Import JSString.

(** The decimal digits of a number, as code units. *)
Fixpoint digits (u : Decimal.uint) : jsstring :=
  match u with
  | Decimal.Nil => []
  | Decimal.D0 u => 48%N :: digits u
  | Decimal.D1 u => 49%N :: digits u
  | Decimal.D2 u => 50%N :: digits u
  | Decimal.D3 u => 51%N :: digits u
  | Decimal.D4 u => 52%N :: digits u
  | Decimal.D5 u => 53%N :: digits u
  | Decimal.D6 u => 54%N :: digits u
  | Decimal.D7 u => 55%N :: digits u
  | Decimal.D8 u => 56%N :: digits u
  | Decimal.D9 u => 57%N :: digits u
  end.

(** [String(n)] for a non-negative integer [n]. *)
Definition toString (n : nat) : jsstring := digits (Nat.to_uint n).

(** [s.padStart(targetLength, fill)] with a one-unit [fill]. *)
Definition padStart (targetLength : nat) (fill : N) (s : jsstring) : jsstring :=
  replicate (targetLength - length s) fill ++ s.

(** The [value] of the option that [initializeSelects] creates for a month
    and for a day. *)
Definition monthValue (month : nat) : jsstring := toString month.
Definition dateValue (day : nat) : jsstring := padStart 2 48 (toString day).

(** The database key of [searchFlights]: [month + date]. *)
Definition birthday (month day : nat) : jsstring := monthValue month ++ dateValue day.

End App.

(** ** Stand-ins for host functions, used to run the model *)

Module Host.
Import JSString.

(** Upper-casing of the ASCII letters. *)
Definition toUpperCase (s : jsstring) : jsstring :=
  (λ c, if ((97 <=? c) && (c <=? 122))%N then (c - 32)%N else c) <$> s.

(** A decimal reader for texts such as [-117.5]: sign, digits, fraction. *)
Fixpoint readDigits (acc scale : float) (fraction : bool) (s : jsstring) : float :=
  match s with
  | [] => (acc / scale)%float
  | c :: rest =>
      if ((48 <=? c) && (c <=? 57))%N then
        readDigits (acc * 10 + JSMath.number (N.to_nat (c - 48)))%float
                   (if fraction then scale * 10 else scale)%float fraction rest
      else if (c =? 46)%N then readDigits acc scale true rest
      else (acc / scale)%float
  end.

Definition parseFloat (s : jsstring) : float :=
  match s with
  | 45%N :: rest => (- readDigits 0 1 false rest)%float
  | _ => readDigits 0 1 false s
  end.

(** A Leaflet that refuses nothing but NaN coordinates. *)
Definition leaflet (c : FlightMapState.call) : bool := true.

(** A Nominatim answer for Haneda. *)
Definition haneda : AirportSearch.NominatimResult :=
  AirportSearch.mkResult (str "35.5494") (str "139.7798")
    (Some (str "Tokyo International Airport, Ota, Tokyo, Japan")).

End Host.

(** * Properties *)

(** ** Binary64 arithmetic without overflow

    Crude bounds on the exponents produced by rounding: enough to show that
    the products and quotients of [generateArc] on in-range degrees stay
    finite. *)

Module FloatFacts.
Import FloatBounds JSMath.
Local Open Scope Z_scope.

Lemma digits2_pos_size (p : positive) : digits2_pos p = Pos.size p.
Proof. induction p; cbn; congruence. Qed.

Lemma pos_lt_pow_digits (p : positive) : Zpos p < 2 ^ Zpos (digits2_pos p).
Proof.
  rewrite digits2_pos_size.
  pose proof (Pos.size_gt p) as H.
  apply Pos2Z.pos_lt_pos in H. by rewrite Pos2Z.inj_pow in H.
Qed.

Lemma Zdigits2_le (m D : Z) : 0 ≤ D → 0 ≤ m < 2 ^ D → Zdigits2 m ≤ D.
Proof.
  intros HD [Hm0 Hm].
  destruct m as [|p|p]; [done| |lia].
  cbn [Zdigits2]. rewrite digits2_pos_size.
  pose proof (Pos.size_le p) as H.
  apply Pos2Z.pos_le_pos in H. rewrite Pos2Z.inj_pow in H.
  destruct (Z_le_gt_dec (Zpos (Pos.size p)) D) as [|Hgt]; [done|exfalso].
  assert (2 ^ (D + 1) ≤ 2 ^ Zpos (Pos.size p)) by (apply Z.pow_le_mono_r; lia).
  rewrite Z.pow_add_r in * by lia. lia.
Qed.

Lemma shr_1_bounds (mrs : shr_record) :
  0 ≤ shr_m mrs → 0 ≤ shr_m (shr_1 mrs) ≤ shr_m mrs.
Proof.
  destruct mrs as [m r s]. cbn [shr_m]. intros Hm.
  destruct m as [|[p|p|]|p]; cbn; lia.
Qed.

Lemma iter_shr_1_bounds (n : positive) (mrs : shr_record) :
  0 ≤ shr_m mrs → 0 ≤ shr_m (SpecFloat.iter_pos shr_1 n mrs) ≤ shr_m mrs.
Proof.
  revert mrs. induction n as [n IH|n IH|]; intros mrs Hm; cbn [SpecFloat.iter_pos].
  - pose proof (shr_1_bounds mrs Hm) as H1.
    pose proof (IH _ (proj1 H1)) as H2.
    pose proof (IH _ (proj1 H2)) as H3. lia.
  - pose proof (IH _ Hm) as H2.
    pose proof (IH _ (proj1 H2)) as H3. lia.
  - by apply shr_1_bounds.
Qed.

Lemma shr_m_of_loc (m : Z) (l : location) : shr_m (shr_record_of_loc m l) = m.
Proof. by destruct l as [|[]]. Qed.

Lemma shr_fexp_bounds (m e : Z) (l : location) :
  0 ≤ m →
  0 ≤ shr_m (shr_fexp prec emax m e l).1 ≤ m ∧
  e ≤ (shr_fexp prec emax m e l).2 ≤ Z.max e (fexp prec emax (Zdigits2 m + e)).
Proof.
  intros Hm. unfold shr_fexp, shr.
  destruct (fexp prec emax (Zdigits2 m + e) - e) as [|p|p] eqn:E; cbn [fst snd].
  - rewrite shr_m_of_loc. lia.
  - pose proof (iter_shr_1_bounds p (shr_record_of_loc m l)) as H.
    rewrite shr_m_of_loc in H. lia.
  - rewrite shr_m_of_loc. lia.
Qed.

Lemma round_nearest_even_bounds (m : Z) (l : location) :
  m ≤ round_nearest_even m l ≤ m + 1.
Proof. destruct l as [|[]]; cbn; try destruct (Z.even m); lia. Qed.

Lemma binary_round_aux_below (s : bool) (m e : Z) (l : location) (D : Z) :
  0 ≤ D ≤ 1000 → 0 ≤ m < 2 ^ D → e + 2 * D ≤ emax - prec →
  SFbelow (Z.max (e + 2 * D) (emin + D)) (binary_round_aux prec emax s m e l) ∧
  SFsign (binary_round_aux prec emax s m e l) = Some s.
Proof.
  intros HD Hm He. unfold binary_round_aux.
  pose proof (shr_fexp_bounds m e l (proj1 Hm)) as [Hm1 He1].
  destruct (shr_fexp prec emax m e l) as [mrs1 e1]. cbn [fst snd] in Hm1, He1.
  set (m1 := round_nearest_even (shr_m mrs1) (loc_of_shr_record mrs1)).
  pose proof (round_nearest_even_bounds (shr_m mrs1) (loc_of_shr_record mrs1)) as Hr.
  fold m1 in Hr.
  assert (Hm1' : 0 ≤ m1) by lia.
  pose proof (shr_fexp_bounds m1 e1 loc_Exact Hm1') as [Hm2 He2].
  destruct (shr_fexp prec emax m1 e1 loc_Exact) as [mrs2 e2]. cbn [fst snd] in Hm2, He2.
  pose proof (Zdigits2_le m D (proj1 HD) Hm) as Hd.
  assert (Hd1 : Zdigits2 m1 ≤ D + 1).
  { apply Zdigits2_le; [lia|]. rewrite Z.pow_add_r by lia. lia. }
  unfold fexp, SpecFloat.emin, emax, prec in *.
  destruct (shr_m mrs2) as [|p|p]; [done| |lia].
  replace (e2 <=? 1024 - 53) with true by (symmetry; apply Z.leb_le; lia).
  cbn. split; [lia|done].
Qed.

Lemma valid_finite (s : bool) (m : positive) (e : Z) :
  valid_binary (S754_finite s m e) = true → Zpos m < 2 ^ 53 ∧ e ≤ emax - prec.
Proof.
  cbn [SpecFloat.valid_binary]. unfold bounded, canonical_mantissa.
  intros [Hc He]%andb_true_iff. apply Z.eqb_eq in Hc. apply Z.leb_le in He.
  split; [|done].
  pose proof (pos_lt_pow_digits m) as Hm.
  assert (Zpos (digits2_pos m) ≤ 53) as Hd by (unfold fexp, prec in Hc; lia).
  assert (2 ^ Zpos (digits2_pos m) ≤ 2 ^ 53) by (apply Z.pow_le_mono_r; lia).
  lia.
Qed.

Lemma SFmul_below (kx ky : Z) (x y : spec_float) (sx sy : bool) :
  valid_binary x = true → valid_binary y = true →
  SFbelow kx x → SFbelow ky y → SFsign x = Some sx → SFsign y = Some sy →
  kx + ky + 212 ≤ emax - prec →
  SFbelow (Z.max (kx + ky + 212) (emin + 106)) (SF64mul x y) ∧
  SFsign (SF64mul x y) = Some (xorb sx sy).
Proof.
  intros Vx Vy Hx Hy Sx Sy Hk.
  destruct x as [sx'| | |sx' mx ex]; try done;
    destruct y as [sy'| | |sy' my ey]; try done;
    cbn in Sx, Sy; simplify_eq; try (by cbn).
  cbn [SF64mul SFmul]. unfold SF64mul, SFmul.
  apply valid_finite in Vx as [Hmx _]. apply valid_finite in Vy as [Hmy _].
  cbn [SFbelow] in Hx, Hy.
  pose proof (binary_round_aux_below (xorb sx sy) (Zpos (mx * my)) (ex + ey) loc_Exact 106)
    as [Hb Hs]; [lia | | unfold emax, prec in *; lia |].
  { rewrite Pos2Z.inj_mul. split; [lia|].
    change (2 ^ 106) with (2 ^ 53 * 2 ^ 53). nia. }
  split; [|done].
  destruct (binary_round_aux _ _ _ _ _ _) as [| | |s' m' e']; try done.
  cbn [SFbelow] in *. unfold emax, prec in *. lia.
Qed.

Lemma SFdiv_below (kx : Z) (x : spec_float) (sx sy : bool) (my : positive) (ey : Z) :
  valid_binary x = true → valid_binary (S754_finite sy my ey) = true →
  SFbelow kx x → SFsign x = Some sx →
  kx - ey + 318 ≤ emax - prec →
  SFbelow (Z.max (kx - ey + 318) (emin + 159)) (SF64div x (S754_finite sy my ey)) ∧
  SFsign (SF64div x (S754_finite sy my ey)) = Some (xorb sx sy).
Proof.
  intros Vx Vy Hx Sx Hk.
  destruct x as [sx'| | |sx' mx ex]; try done; cbn in Sx; simplify_eq; [by cbn|].
  unfold SF64div, SFdiv, SFdiv_core_binary.
  apply valid_finite in Vx as [Hmx _]. apply valid_finite in Vy as [Hmy _].
  cbn [SFbelow] in Hx.
  set (d1 := Zdigits2 (Zpos mx)). set (d2 := Zdigits2 (Zpos my)).
  set (e' := Z.min (fexp prec emax (d1 + ex - (d2 + ey))) (ex - ey)).
  set (m' := match ex - ey - e' with Zpos _ => Z.shiftl (Zpos mx) (ex - ey - e') | Z0 => Zpos mx | Zneg _ => 0 end).
  assert (Hd1 : 1 ≤ d1) by (unfold d1; cbn; lia).
  assert (Hd2 : d2 ≤ 53) by (apply Zdigits2_le; lia).
  assert (He' : e' ≤ ex - ey) by (unfold e'; lia).
  assert (Hs : ex - ey - e' ≤ 105) by (unfold e', fexp, prec; lia).
  assert (Hm' : 0 ≤ m' < 2 ^ 159).
  { unfold m'. destruct (ex - ey - e') as [|p|p] eqn:E; [lia| |lia].
    rewrite Z.shiftl_mul_pow2 by lia.
    assert (2 ^ Zpos p ≤ 2 ^ 105) by (apply Z.pow_le_mono_r; lia).
    assert (0 < 2 ^ Zpos p) by (apply Z.pow_pos_nonneg; lia).
    change (2 ^ 159) with (2 ^ 53 * 2 ^ 105 * 2). nia. }
  pose proof (Z.div_eucl_eq m' (Zpos my) ltac:(done)) as Heq.
  pose proof (Z.mod_pos_bound m' (Zpos my) ltac:(done)) as Hr.
  unfold Z.modulo in Hr.
  destruct (Z.div_eucl m' (Z.pos my)) as [q r].
  assert (Hq : 0 ≤ q < 2 ^ 159) by nia.
  pose proof (binary_round_aux_below (xorb sx sy) q e' (new_location (Zpos my) r) 159)
    as [Hb Hsg]; [lia | done | unfold emax, prec in *; lia |].
  split; [|done].
  destruct (binary_round_aux _ _ _ _ _ _) as [| | |s' m'' e'']; try done.
  cbn [SFbelow] in *. unfold emax, prec in *. lia.
Qed.

Local Open Scope float_scope.

Lemma below_sign (k : Z) (x : float) : below k x → ∃ s, sign_of x = Some s.
Proof. unfold below, sign_of. destruct (Prim2SF x); cbn; eauto; done. Qed.

Lemma mul_below (kx ky : Z) (x y : float) (sx sy : bool) :
  below kx x → below ky y → sign_of x = Some sx → sign_of y = Some sy →
  (kx + ky + 212 ≤ 971)%Z →
  below (Z.max (kx + ky + 212) (-968)) (x * y) ∧ sign_of (x * y) = Some (xorb sx sy).
Proof.
  intros Hx Hy Sx Sy Hk. unfold below, sign_of. rewrite mul_spec.
  by apply SFmul_below; auto using Prim2SF_valid.
Qed.

Lemma div_below (kx : Z) (x y : float) (sx sy : bool) (my : positive) (ey : Z) :
  Prim2SF y = S754_finite sy my ey →
  below kx x → sign_of x = Some sx →
  (kx - ey + 318 ≤ 971)%Z →
  below (Z.max (kx - ey + 318) (-915)) (x / y) ∧ sign_of (x / y) = Some (xorb sx sy).
Proof.
  intros Ey Hx Sx Hk. unfold below, sign_of. rewrite div_spec, Ey.
  apply SFdiv_below; auto using Prim2SF_valid.
  rewrite <- Ey. apply Prim2SF_valid.
Qed.

(** A float between [-c] and [c] has an exponent no larger than that of [c]. *)
Lemma range_below (c x : float) (mc : positive) (ec : Z) :
  Prim2SF c = S754_finite false mc ec →
  (- c <=? x) = true → (x <=? c) = true → below ec x.
Proof.
  intros Ec Hlo Hhi. unfold below.
  rewrite leb_spec in Hlo, Hhi. rewrite opp_spec, Ec in Hlo. rewrite Ec in Hhi.
  destruct (Prim2SF x) as [s|s| |s m e]; cbn in *; try done.
  - by destruct s.
  - destruct s.
    + destruct (Z.compare_spec ec e); [lia|done|lia].
    + destruct (Z.compare_spec e ec); [lia|lia|done].
Qed.

Lemma range_abs (c x : float) (mc : positive) (ec : Z) :
  Prim2SF c = S754_finite false mc ec →
  (- c <=? x) = true → (x <=? c) = true → (abs x <=? c) = true.
Proof.
  intros Ec Hlo Hhi.
  rewrite leb_spec in Hlo, Hhi |- *. rewrite abs_spec.
  rewrite opp_spec, Ec in Hlo. rewrite Ec in Hhi |- *.
  destruct (Prim2SF x) as [s|s| |s m e]; [done|by destruct s|done|].
  destruct s; [|done].
  unfold SFleb, SFcompare, SFabs, SFopp in *. cbn [negb] in Hlo.
  rewrite (Z.compare_antisym e ec) in Hlo.
  destruct (e ?= ec)%Z; cbn in *; try done.
  rewrite Pos.compare_cont_antisym in Hlo. cbn in Hlo.
  by destruct (Pos.compare_cont Eq m mc).
Qed.

Lemma abs_below (c x : float) (mc : positive) (ec : Z) :
  Prim2SF c = S754_finite false mc ec →
  (abs x <=? c) = true → below ec x.
Proof.
  intros Ec H. unfold below. rewrite leb_spec, abs_spec, Ec in H.
  destruct (Prim2SF x) as [s|s| |s m e]; cbn in *; try done.
  destruct (Z.compare_spec e ec); [lia|lia|done].
Qed.

Lemma below_is_finite (k : Z) (x : float) : below k x → is_finite x = true.
Proof.
  unfold below, is_finite, is_nan, is_infinity. intros H.
  rewrite !FloatAxioms.eqb_spec, abs_spec.
  destruct (Prim2SF x) as [s|s| |s m e]; try done.
  unfold SFeqb. cbn.
  rewrite Z.compare_refl, Pos.compare_cont_refl. by destruct s.
Qed.

Lemma sub_diag (k : Z) (x : float) : below k x → x - x = 0.
Proof.
  unfold below. intros H. apply Prim2SF_inj. rewrite sub_spec.
  destruct (Prim2SF x) as [s|s| |s m e]; try done.
  - by destruct s.
  - unfold SF64sub, SFsub, shl_align.
    rewrite Z.min_id, Z.sub_diag. cbn [fst]. done.
Qed.

Lemma mul_zero_r (k : Z) (x : float) : below k x → sign_of x = Some false → x * 0 = 0.
Proof.
  unfold below, sign_of. intros H Hs. apply Prim2SF_inj. rewrite mul_spec.
  destruct (Prim2SF x) as [s|s| |s m e]; cbn in *; by simplify_eq.
Qed.

Lemma below_mono (k k' : Z) (x : float) : (k ≤ k')%Z → below k x → below k' x.
Proof. unfold below. destruct (Prim2SF x); cbn; [done..|lia]. Qed.

(** Radians of a longitude or latitude in range: [deg * PI / 180] is finite. *)
Lemma radians_below (deg : float) : below (-45) deg → below 479 (deg * PI / 180).
Proof.
  intros Hd.
  destruct (below_sign _ _ Hd) as [s Hs].
  assert (Hpi : below (-51) PI) by (by vm_compute).
  destruct (mul_below (-45) (-51) deg PI s false Hd Hpi Hs eq_refl ltac:(lia)) as [Hm Hms].
  change (Z.max (-45 + -51 + 212) (-968)) with 116%Z in Hm.
  by destruct (div_below 116 (deg * PI) 180 _ false _ (-45) eq_refl Hm Hms ltac:(lia)).
Qed.

Lemma square_mul_zero (c : float) : (abs c <=? 1) = true → c * c * 0 = 0.
Proof.
  intros Hc.
  assert (Hb : below (-52) c) by (by eapply (abs_below 1)).
  destruct (below_sign _ _ Hb) as [s Hs].
  destruct (mul_below (-52) (-52) c c s s Hb Hb Hs Hs ltac:(lia)) as [Hm Hms].
  rewrite xorb_nilpotent in Hms.
  by eapply mul_zero_r.
Qed.

End FloatFacts.

(** ** Segmentation *)

Module AntimeridianFacts.
Import Antimeridian.

Lemma for_loop_handle (pre suf : list Point) (st : state) :
  ∀ segs : list (list Point),
    segments st = segs →
    let st' := for_loop (length suf) (length pre) (loop_body (pre ++ suf)) st in
    segments st' ++
      (if (0 <? Z.of_nat (length (currentSegment st')))%Z then [currentSegment st'] else [])
    = segs ++ runs (currentSegment st) suf.
Proof.
  revert pre st.
  induction suf as [|p rest IH]; intros pre st segs Hsegs; cbn [for_loop length].
  - cbn. rewrite Hsegs. destruct (currentSegment st); cbn; done.
  - pose proof (IH (pre ++ [p])) as IH'.
    replace (S (length pre)) with (length (pre ++ [p])) by (rewrite length_app; cbn; lia).
    replace (pre ++ p :: rest) with ((pre ++ [p]) ++ rest) by (rewrite <- app_assoc; done).
    assert (Hbody : loop_body ((pre ++ [p]) ++ rest) (length pre) st =
      match rest with
      | [] => mkState (segments st) (currentSegment st ++ [p])
      | q :: _ =>
          if crossing p q
          then mkState (segments st ++ [currentSegment st ++ [p]]) []
          else mkState (segments st) (currentSegment st ++ [p])
      end).
    { unfold loop_body.
      rewrite <- app_assoc. cbn [app].
      rewrite list_lookup_middle by done.
      rewrite length_app. cbn [length].
      destruct rest as [|q rest'].
      - cbn [length].
        replace (Z.of_nat (length pre) <? Z.of_nat (length pre + 1) - 1)%Z with false
          by (symmetry; apply Z.ltb_ge; lia).
        done.
      - cbn [length].
        replace (Z.of_nat (length pre) <? Z.of_nat (length pre + S (S (length rest'))) - 1)%Z
          with true by (symmetry; apply Z.ltb_lt; lia).
        replace (pre ++ p :: q :: rest') with ((pre ++ [p]) ++ q :: rest')
          by (rewrite <- app_assoc; done).
        rewrite list_lookup_middle by (rewrite length_app; cbn; lia).
        done. }
    rewrite Hbody.
    destruct rest as [|q rest'].
    + cbn [for_loop length]. cbn [runs segments currentSegment].
      rewrite Hsegs.
      replace (0 <? Z.of_nat (length (currentSegment st ++ [p])))%Z with true
        by (symmetry; apply Z.ltb_lt; rewrite length_app; cbn; lia).
      done.
    + cbn [runs]. destruct (crossing p q).
      * erewrite IH' by (cbn; reflexivity).
        cbn [currentSegment]. rewrite Hsegs, <- app_assoc. done.
      * erewrite IH' by (cbn; reflexivity).
        cbn [currentSegment]. rewrite Hsegs. done.
Qed.

(** The loop of the source computes [runs]. *)
Lemma handleAntimeridian_runs (points : list Point) :
  handleAntimeridian points = runs [] points.
Proof.
  unfold handleAntimeridian.
  pose proof (for_loop_handle [] points (mkState [] []) [] eq_refl) as H.
  cbn [app length segments currentSegment] in H. cbn zeta in H.
  rewrite <- H.
  destruct (0 <? _)%Z; [done | by rewrite app_nil_r].
Qed.

Lemma concat_runs (pts cur : list Point) :
  concat (runs cur pts) = cur ++ pts.
Proof.
  revert cur. induction pts as [|p rest IH]; intros cur.
  - destruct cur; cbn; [done | by rewrite !app_nil_r].
  - cbn [runs]. destruct rest as [|q rest'].
    + cbn. by rewrite app_nil_r.
    + destruct (crossing p q).
      * cbn [concat]. rewrite IH. cbn. by rewrite <- app_assoc.
      * rewrite IH. by rewrite <- app_assoc.
Qed.

(** C1. Concatenation law: for every sequence of points (non-empty or
    not), concatenating in order the segments returned by
    [handleAntimeridian] gives back exactly the input sequence (nothing
    dropped, duplicated or reordered). *)
Theorem handleAntimeridian_concat (points : list Point) :
  concat (handleAntimeridian points) = points.
Proof.
  rewrite handleAntimeridian_runs. apply concat_runs.
Qed.

(** Appending a point [q] after a last point [p] that it does not cross
    keeps a run free of crossings. *)
Lemma no_crossing_snoc (l : list Point) (p q : Point) :
  no_crossing (l ++ [p]) → crossing p q = false → no_crossing ((l ++ [p]) ++ [q]).
Proof.
  intros Hl Hpq i a b Ha Hb.
  destruct (decide (i + 1 < length (l ++ [p]))%nat) as [Hlt|Hge].
  - rewrite lookup_app_l in Ha by lia.
    rewrite lookup_app_l in Hb by lia.
    by eapply Hl.
  - apply lookup_lt_Some in Hb as Hi.
    rewrite !length_app in Hi. rewrite length_app in Hge. cbn in Hi, Hge.
    assert (i = length l) as -> by lia.
    rewrite <- app_assoc in Ha. cbn [app] in Ha.
    rewrite list_lookup_middle in Ha by done.
    rewrite list_lookup_middle in Hb by (rewrite length_app; cbn; lia).
    by simplify_eq.
Qed.

Lemma no_crossing_singleton (p : Point) : no_crossing [p].
Proof. intros i a b Ha Hb. apply lookup_lt_Some in Hb. cbn in Hb. lia. Qed.

Lemma runs_segments (pts cur : list Point) :
  no_crossing (cur ++ take 1 pts) →
  Forall (λ s, s ≠ [] ∧ no_crossing s) (runs cur pts).
Proof.
  revert cur. induction pts as [|p rest IH]; intros cur Hcur.
  - cbn in *. rewrite app_nil_r in Hcur.
    destruct cur; [constructor | by repeat constructor].
  - cbn [take] in Hcur. cbn [runs].
    destruct rest as [|q rest'].
    + repeat constructor; [by destruct cur | done].
    + destruct (crossing p q) eqn:Hpq.
      * constructor; [split; [by destruct cur | done]|].
        apply IH. cbn. apply no_crossing_singleton.
      * apply IH. cbn [take]. by apply no_crossing_snoc.
Qed.

(** C2. No-crossing invariant: for every input sequence, every segment
    returned by [handleAntimeridian] is non-empty and has no two adjacent
    points whose absolute longitude difference exceeds 180. *)
Theorem handleAntimeridian_segments (points : list Point) :
  Forall (λ s, s ≠ [] ∧ no_crossing s) (handleAntimeridian points).
Proof.
  rewrite handleAntimeridian_runs. apply runs_segments.
  destruct points as [|p ?]; cbn; [by intros [|?] ? ? ? | apply no_crossing_singleton].
Qed.

Lemma has_crossing_head (p q : Point) (rest : list Point) :
  crossing p q = true → has_crossing (p :: q :: rest).
Proof. intros H. by exists 0%nat, p, q. Qed.

Lemma has_crossing_tail (p : Point) (rest : list Point) :
  has_crossing rest → has_crossing (p :: rest).
Proof. intros (i & a & b & Ha & Hb & Hab). by exists (S i), a, b. Qed.

Lemma runs_single (pts cur : list Point) :
  cur ++ pts ≠ [] → ¬ has_crossing pts → length (runs cur pts) = 1%nat.
Proof.
  revert cur. induction pts as [|p rest IH]; intros cur Hne Hno.
  - rewrite app_nil_r in Hne. by destruct cur.
  - cbn [runs]. destruct rest as [|q rest']; [done|].
    destruct (crossing p q) eqn:Hpq.
    + exfalso. apply Hno. by apply has_crossing_head.
    + apply IH; [by destruct cur | ].
      intros H. apply Hno. by apply has_crossing_tail.
Qed.

(** C7. For every non-empty input sequence, [handleAntimeridian] returns
    exactly one segment unless some consecutive pair of the input has an
    absolute longitude difference exceeding 180. *)
Theorem handleAntimeridian_single (points : list Point) :
  points ≠ [] → ¬ has_crossing points → length (handleAntimeridian points) = 1%nat.
Proof.
  intros Hne Hno. rewrite handleAntimeridian_runs. by apply runs_single.
Qed.

(** Two points on the same side of the antimeridian stay in one segment. *)
Lemma handleAntimeridian_single_witness :
  [mkPoint 35 135; mkPoint 36 140] ≠ [] ∧
  ¬ has_crossing [mkPoint 35 135; mkPoint 36 140] ∧
  length (handleAntimeridian [mkPoint 35 135; mkPoint 36 140]) = 1%nat.
Proof.
  assert (Hno : ¬ has_crossing [mkPoint 35 135; mkPoint 36 140]).
  { intros (i & p & q & Hp & Hq & Hpq).
    destruct i as [|[|i]]; cbn in Hp, Hq; [|done..].
    injection Hp as <-. injection Hq as <-.
    vm_compute in Hpq. discriminate Hpq. }
  split; [discriminate|]. split; [exact Hno|].
  apply (handleAntimeridian_single [mkPoint 35 135; mkPoint 36 140]);
    [discriminate | exact Hno].
Defined.

(** A path that steps over the date line between its second and third
    points is cut there. *)
Example handleAntimeridian_date_line :
  handleAntimeridian
    [mkPoint 0 170; mkPoint 0 179; mkPoint 0 (-179); mkPoint 0 (-170)]
  = [[mkPoint 0 170; mkPoint 0 179]; [mkPoint 0 (-179); mkPoint 0 (-170)]].
Proof. reflexivity. Qed.

(** A longitude difference of exactly 180, or one that is NaN, is not a
    crossing. *)
Example crossing_threshold :
  crossing (mkPoint 0 90) (mkPoint 0 (-90)) = false ∧
  crossing (mkPoint 0 90) (mkPoint 0 nan) = false ∧
  crossing (mkPoint 0 90.5) (mkPoint 0 (-90)) = true.
Proof. repeat split; reflexivity. Qed.

(** The converse direction: a crossing pair forces a second segment. *)
Lemma runs_split (pts cur : list Point) :
  has_crossing pts → (2 ≤ length (runs cur pts))%nat.
Proof.
  revert cur. induction pts as [|p rest IH]; intros cur (i & a & b & Ha & Hb & Hab).
  - done.
  - cbn [runs]. destruct rest as [|q rest'].
    + apply lookup_lt_Some in Hb. cbn in Hb. lia.
    + destruct (crossing p q) eqn:Hpq.
      * cbn [length].
        assert (1 ≤ length (runs [] (q :: rest')))%nat; [|lia].
        destruct (runs [] (q :: rest')) eqn:E; [|cbn; lia].
        pose proof (concat_runs (q :: rest') []) as Hc.
        rewrite E in Hc. done.
      * apply IH. destruct i as [|i].
        { cbn in Ha, Hb. simplify_eq. congruence. }
        by exists i, a, b.
Qed.

Lemma handleAntimeridian_split (points : list Point) :
  has_crossing points → (2 ≤ length (handleAntimeridian points))%nat.
Proof. rewrite handleAntimeridian_runs. apply runs_split. Qed.

End AntimeridianFacts.

(** ** Great-circle arcs

    What is proved here holds for every [Math] library, or for every one
    meeting [JSMath.spec]: the number of points and the degenerate case.
    How close the points are to the endpoints, to the great
    circle or to the reversed arc, and whether their coordinates stay in
    range, depends on the accuracy of [Math.sin], [Math.cos], [Math.asin]
    and [Math.atan2], which ECMAScript does not bound; no such property is
    stated. *)

Module GreatCircleFacts.
Import FloatBounds FloatFacts JSMath GreatCircle.
Local Open Scope float_scope.

(** A loop whose body pushes one element per iteration builds the list of
    the pushed elements. *)
Lemma for_loop_push {A : Type} (g : nat → A) (body : nat → list A → list A) :
  (∀ i acc, body i acc = acc ++ [g i]) →
  ∀ (count start : nat) (acc : list A),
    for_loop count start body acc = acc ++ map g (seq start count).
Proof.
  intros Hbody count. induction count as [|count IH]; intros start acc; cbn.
  - by rewrite app_nil_r.
  - rewrite IH, Hbody, <- app_assoc. done.
Qed.

Lemma loop_body_push (M : lib) (start end_ : Point) (numPoints i : nat)
    (points : list Point) :
  loop_body M start (lat start * PI / 180) (lng start * PI / 180)
    (lat end_ * PI / 180) (lng end_ * PI / 180) numPoints i points
  = points ++ [arcPoint M start end_ numPoints i].
Proof.
  unfold loop_body, arcPoint, degenerate.
  by destruct (centralAngle M _ _ _ _ =? 0).
Qed.

(** [generateArc] is the list of the points of the iterations
    [0, 1, ..., numPoints]. *)
Lemma generateArc_map (M : lib) (start end_ : Point) (numPoints : nat) :
  generateArc M start end_ numPoints
  = map (arcPoint M start end_ numPoints) (seq 0 (S numPoints)).
Proof.
  unfold generateArc.
  rewrite (for_loop_push (arcPoint M start end_ numPoints)); [done|].
  intros i acc. apply loop_body_push.
Qed.

(** C6. For all start and end points and every sample count [n], the path
    returned by [generateArc] has exactly [n + 1] points (in particular for
    valid points and [n >= 1]). *)
Theorem generateArc_length (M : lib) (start end_ : Point) (n : nat) :
  length (generateArc M start end_ n) = (n + 1)%nat.
Proof.
  rewrite generateArc_map, length_map, length_seq. lia.
Qed.

(** When both endpoints have the same finite coordinates in radians, the
    haversine angle is exactly [0]. *)
Lemma centralAngle_diag (M : lib) (k : Z) (lat1 lng1 : float) :
  spec M → below k lat1 → below k lng1 →
  centralAngle M lat1 lng1 lat1 lng1 = 0.
Proof.
  intros HM Hlat Hlng. unfold centralAngle.
  rewrite (sub_diag k lat1 Hlat), (sub_diag k lng1 Hlng).
  change (0 / 2) with 0.
  rewrite (sin_zero M HM), (pow_zero_two M HM).
  rewrite square_mul_zero
    by (apply (cos_range M HM); by eapply below_is_finite).
  change (sqrt (0 + 0)) with 0.
  by rewrite (asin_zero M HM).
Qed.

Lemma valid_below (p : Point) :
  valid p = true →
  below 479 (lat p * PI / 180) ∧ below 479 (lng p * PI / 180).
Proof.
  unfold valid. intros [[[H1 H2]%andb_true_iff H3]%andb_true_iff H4]%andb_true_iff.
  split; apply radians_below.
  - apply (below_mono (-46)); [lia|]. by eapply (range_below 90).
  - by eapply (range_below 180).
Qed.

Lemma degenerate_diag (M : lib) (start : Point) :
  spec M → valid start = true → degenerate M start start = true.
Proof.
  intros HM [Hlat Hlng]%valid_below. unfold degenerate.
  by rewrite (centralAngle_diag M 479).
Qed.

(** C5. Degenerate identity: for every valid point [start] and every sample
    count [n], [generateArc] called with [end] equal to [start] returns
    exactly [n + 1] copies of [start]; the guard [d === 0] holds, so every
    iteration leaves through [continue] before any division by [sin(d)].
    [Math] is any library meeting [JSMath.spec]. *)
Theorem generateArc_degenerate (M : lib) (start : Point) (n : nat) :
  spec M → valid start = true →
  degenerate M start start = true ∧
  generateArc M start start n = replicate (n + 1) start.
Proof.
  intros HM Hv. pose proof (degenerate_diag M start HM Hv) as Hd.
  split; [done|].
  rewrite generateArc_map. unfold arcPoint. rewrite Hd.
  replace (n + 1)%nat with (S n) by lia.
  destruct start as [la lo]. cbn [lat lng].
  generalize 0%nat. induction (S n) as [|c IH]; intros i; cbn; [done|].
  by rewrite IH.
Qed.

(** The concrete library meets [spec]. *)
Lemma abs_clamp (y : float) : (abs (clamp y) <=? 1) = true.
Proof.
  unfold clamp.
  destruct (y <=? 1) eqn:Hhi; [|reflexivity].
  destruct (-1 <=? y) eqn:Hlo; [|reflexivity].
  by apply (range_abs 1 y 4503599627370496 (-52)).
Qed.

Lemma taylor_spec : spec taylor.
Proof. split; [done..|]. intros x _. apply abs_clamp. Qed.

(** The degenerate case run with the concrete library: both endpoints at
    [(0, 0)] and ten steps give eleven copies of [(0, 0)]. *)
Lemma generateArc_degenerate_witness :
  spec taylor ∧ valid (mkPoint 0 0) = true ∧
  degenerate taylor (mkPoint 0 0) (mkPoint 0 0) = true ∧
  generateArc taylor (mkPoint 0 0) (mkPoint 0 0) 10
  = replicate (10 + 1) (mkPoint 0 0).
Proof.
  split; [exact taylor_spec|]. split; [reflexivity|].
  apply (generateArc_degenerate taylor (mkPoint 0 0) 10 taylor_spec).
  reflexivity.
Defined.

End GreatCircleFacts.

(** ** Where the path is cut *)

Module SegmentationFacts.
Import Antimeridian AntimeridianFacts Segmentation.

Lemma runs_length (pts cur : list Point) :
  cur ++ pts ≠ [] → length (runs cur pts) = S (crossings pts).
Proof.
  revert cur. induction pts as [|p rest IH]; intros cur Hne.
  - rewrite app_nil_r in Hne. by destruct cur.
  - cbn [runs crossings]. destruct rest as [|q rest']; [done|].
    destruct (crossing p q).
    + cbn [length]. by rewrite IH.
    + rewrite IH; [done|]. by destruct cur.
Qed.

(** X1. A non-empty path is cut into one segment more than it has crossing
    pairs; the empty path gives no segment. *)
Theorem handleAntimeridian_count (points : list Point) :
  length (handleAntimeridian points)
  = match points with [] => 0 | _ => S (crossings points) end.
Proof.
  rewrite handleAntimeridian_runs. destruct points as [|p rest]; [done|].
  by apply runs_length.
Qed.

Lemma runs_first (pts cur : list Point) :
  cur ++ pts ≠ [] →
  ∃ s ss, runs cur pts = s :: ss ∧ head s = head (cur ++ pts).
Proof.
  revert cur. induction pts as [|p rest IH]; intros cur Hne.
  - rewrite app_nil_r in *. destruct cur; [done|]. by eexists _, _.
  - cbn [runs]. destruct rest as [|q rest'].
    + by eexists _, _.
    + destruct (crossing p q).
      * eexists _, _. split; [done|]. by destruct cur.
      * destruct (IH (cur ++ [p])) as (s & ss & -> & Hs); [by destruct cur|].
        eexists _, _. split; [done|]. by rewrite Hs, <- app_assoc.
Qed.

Lemma runs_boundaries (pts cur : list Point) (i : nat) (s t : list Point) :
  runs cur pts !! i = Some s → runs cur pts !! S i = Some t →
  ∃ p q, last s = Some p ∧ head t = Some q ∧ crossing p q = true.
Proof.
  revert cur i. induction pts as [|p rest IH]; intros cur i Hs Ht.
  - destruct cur; cbn in Ht; [done|]. by destruct i.
  - cbn [runs] in Hs, Ht. destruct rest as [|q rest'].
    + by destruct i.
    + destruct (crossing p q) eqn:Hpq.
      * destruct i as [|i].
        -- cbn [lookup list_lookup] in Hs, Ht. injection Hs as <-.
           destruct (runs_first (q :: rest') []) as (s' & ss & Hr & Hh); [done|].
           rewrite Hr in Ht. cbn [lookup list_lookup] in Ht. injection Ht as <-.
           exists p, q. by rewrite last_snoc.
        -- cbn [lookup list_lookup] in Hs, Ht. by eapply IH.
      * by eapply IH.
Qed.

(** X2. The path is cut only at crossings: the last point of a segment and
    the first point of the next one always differ by more than 180 in
    longitude. *)
Theorem handleAntimeridian_boundaries (points : list Point) (i : nat)
    (s t : list Point) :
  handleAntimeridian points !! i = Some s →
  handleAntimeridian points !! S i = Some t →
  ∃ p q, last s = Some p ∧ head t = Some q ∧ crossing p q = true.
Proof. rewrite handleAntimeridian_runs. apply runs_boundaries. Qed.

Lemma handleAntimeridian_boundaries_witness :
  handleAntimeridian
    [mkPoint 0 170; mkPoint 0 179; mkPoint 0 (-179); mkPoint 0 (-170)] !! 0
  = Some [mkPoint 0 170; mkPoint 0 179] ∧
  handleAntimeridian
    [mkPoint 0 170; mkPoint 0 179; mkPoint 0 (-179); mkPoint 0 (-170)] !! 1
  = Some [mkPoint 0 (-179); mkPoint 0 (-170)] ∧
  ∃ p q, last [mkPoint 0 170; mkPoint 0 179] = Some p ∧
         head [mkPoint 0 (-179); mkPoint 0 (-170)] = Some q ∧
         crossing p q = true.
Proof.
  split; [reflexivity|]. split; [reflexivity|].
  apply (handleAntimeridian_boundaries
           [mkPoint 0 170; mkPoint 0 179; mkPoint 0 (-179); mkPoint 0 (-170)] 0);
    reflexivity.
Defined.

End SegmentationFacts.

(** ** Strings *)

Module StringFacts.
Import JSString.

Lemma trimStart_split (s : jsstring) :
  ∃ pre, s = pre ++ trimStart s ∧ Forall (λ c, isWhiteSpace c = true) pre.
Proof.
  induction s as [|c s IH]; [by exists []|].
  cbn. destruct (isWhiteSpace c) eqn:Hc.
  - destruct IH as (pre & Hs & Hpre). exists (c :: pre). split; [by rewrite Hs at 1|].
    by constructor.
  - by exists [].
Qed.

Lemma trimStart_head (s : jsstring) (c : N) :
  head (trimStart s) = Some c → isWhiteSpace c = false.
Proof.
  induction s as [|d s IH]; [done|]. cbn.
  destruct (isWhiteSpace d) eqn:Hd; [done|]. cbn. by intros [= <-].
Qed.

Lemma trimStart_last (s : jsstring) (c : N) :
  last s = Some c → isWhiteSpace c = false → last (trimStart s) = Some c.
Proof.
  induction s as [|d s IH]; [done|]. intros Hl Hc. cbn.
  destruct (isWhiteSpace d) eqn:Hd; [|done].
  destruct s as [|e s]; [cbn in Hl; congruence|]. by apply IH.
Qed.

Lemma trimEnd_split (s : jsstring) :
  ∃ post, s = trimEnd s ++ post ∧ Forall (λ c, isWhiteSpace c = true) post.
Proof.
  unfold trimEnd. destruct (trimStart_split (reverse s)) as (pre & Hs & Hpre).
  exists (reverse pre). split; [|by apply Forall_reverse].
  rewrite <- reverse_app, <- Hs. by rewrite reverse_involutive.
Qed.

Lemma trimEnd_last (s : jsstring) (c : N) :
  last (trimEnd s) = Some c → isWhiteSpace c = false.
Proof.
  unfold trimEnd. rewrite last_reverse. apply trimStart_head.
Qed.

Lemma trimEnd_head (s : jsstring) (c : N) :
  head s = Some c → isWhiteSpace c = false → head (trimEnd s) = Some c.
Proof.
  unfold trimEnd. intros Hh Hc. rewrite head_reverse.
  apply trimStart_last; [by rewrite last_reverse|done].
Qed.

(** [trim] strips whitespace, and only whitespace, from both ends. *)
Lemma trim_split (s : jsstring) :
  ∃ pre post,
    s = pre ++ trim s ++ post ∧
    Forall (λ c, isWhiteSpace c = true) pre ∧
    Forall (λ c, isWhiteSpace c = true) post ∧
    (∀ c, head (trim s) = Some c → isWhiteSpace c = false) ∧
    (∀ c, last (trim s) = Some c → isWhiteSpace c = false).
Proof.
  destruct (trimStart_split s) as (pre & Hs & Hpre).
  destruct (trimEnd_split (trimStart s)) as (post & Ht & Hpost).
  exists pre, post. unfold trim. split; [by rewrite <- Ht|].
  split; [done|]. split; [done|]. split; [|apply trimEnd_last].
  intros c Hc.
  destruct (trimStart s) as [|d t] eqn:E.
  - by vm_compute in Hc.
  - assert (isWhiteSpace d = false) as Hd by (apply (trimStart_head s); by rewrite E).
    rewrite (trimEnd_head (d :: t) d eq_refl Hd) in Hc. by simplify_eq.
Qed.

Lemma trim_length (s : jsstring) : length (trim s) ≤ length s.
Proof.
  destruct (trim_split s) as (pre & post & Hs & _).
  rewrite Hs at 2. rewrite !length_app. lia.
Qed.

Lemma trim_id (s : jsstring) :
  (∀ c, head s = Some c → isWhiteSpace c = false) →
  (∀ c, last s = Some c → isWhiteSpace c = false) →
  trim s = s.
Proof.
  intros Hh Hl.
  assert (Hstart : ∀ t : jsstring,
    (∀ c, head t = Some c → isWhiteSpace c = false) → trimStart t = t).
  { intros [|d t] Ht; [done|]. cbn. by rewrite (Ht d eq_refl). }
  unfold trim. rewrite (Hstart s Hh). unfold trimEnd.
  rewrite Hstart; [by rewrite reverse_involutive|].
  intros c. rewrite head_reverse. apply Hl.
Qed.

(** Induction following the two-code-unit look-ahead of [split_from]. *)
Lemma lookahead_ind (P : jsstring → Prop) :
  P [] → (∀ c, P [c]) →
  (∀ c d rest, P (d :: rest) → P rest → P (c :: d :: rest)) →
  ∀ s, P s.
Proof.
  intros Hnil Hone Hstep s.
  assert (H : P s ∧ ∀ c, P (c :: s)); [|by destruct H].
  induction s as [|d s [IH1 IH2]]; [by split|].
  split; [apply IH2|]. intros c. by apply Hstep.
Qed.

Lemma split_from_nonempty (s cur : jsstring) : split_from cur s ≠ [].
Proof.
  revert cur. induction s as [|c s IH]; intros cur; [done|].
  cbn. destruct s as [|d s']; [done|].
  destruct ((c =? 44) && (d =? 32))%N; [done|apply IH].
Qed.

Lemma split_from_step (cur : jsstring) (c d : N) (rest : jsstring) :
  split_from cur (c :: d :: rest)
  = if ((c =? 44) && (d =? 32))%N then cur :: split_from [] rest
    else split_from (cur ++ [c]) (d :: rest).
Proof. done. Qed.

Lemma join_cons (p : jsstring) (rest : list jsstring) :
  rest ≠ [] → join (p :: rest) = p ++ 44%N :: 32%N :: join rest.
Proof. by destruct rest. Qed.

(** Joining the parts of a split gives the string back. *)
Lemma join_split_from (s : jsstring) :
  ∀ cur, join (split_from cur s) = cur ++ s.
Proof.
  induction s as [| c | c d rest IH1 IH2] using lookahead_ind; intros cur.
  - by rewrite app_nil_r.
  - done.
  - rewrite split_from_step. destruct ((c =? 44) && (d =? 32))%N eqn:Hsep.
    + apply andb_true_iff in Hsep as [->%N.eqb_eq ->%N.eqb_eq].
      rewrite join_cons by apply split_from_nonempty. by rewrite IH2.
    + rewrite IH1, <- app_assoc. done.
Qed.

Lemma no_separator_snoc (cur : jsstring) (c : N) :
  no_separator cur = true →
  ¬ (last cur = Some 44%N ∧ c = 32%N) →
  no_separator (cur ++ [c]) = true.
Proof.
  induction cur as [| a | a b rest IH1 IH2] using lookahead_ind; intros Hcur Hlast.
  - done.
  - cbn. rewrite andb_true_r. apply negb_true_iff, andb_false_iff.
    destruct (N.eqb_spec a 44) as [->|]; [|by left]. right.
    apply N.eqb_neq. intros ->. by apply Hlast.
  - cbn [app no_separator] in *. apply andb_true_iff in Hcur as [Hab Hrest].
    rewrite Hab. cbn [andb]. apply IH1; [done|].
    by rewrite last_cons_cons in Hlast.
Qed.

(** The parts of a split contain no separator. *)
Lemma split_from_no_separator (s : jsstring) :
  ∀ cur,
    no_separator cur = true →
    ¬ (last cur = Some 44%N ∧ head s = Some 32%N) →
    Forall (λ p, no_separator p = true) (split_from cur s).
Proof.
  induction s as [| c | c d rest IH1 IH2] using lookahead_ind; intros cur Hcur Hlast.
  - by repeat constructor.
  - repeat constructor. apply no_separator_snoc; [done|].
    intros [? ->]. by apply Hlast.
  - rewrite split_from_step. destruct ((c =? 44) && (d =? 32))%N eqn:Hsep.
    + constructor; [done|]. apply IH2; [done|]. by intros [? _].
    + apply IH1.
      * apply no_separator_snoc; [done|]. intros [? ->]. by apply Hlast.
      * rewrite last_snoc. cbn [head]. intros [[= ->] [= ->]]. done.
Qed.

Lemma split_from_plain (p : jsstring) :
  ∀ cur, no_separator p = true → split_from cur p = [cur ++ p].
Proof.
  induction p as [| c | c d rest IH1 IH2] using lookahead_ind; intros cur Hp.
  - by rewrite app_nil_r.
  - done.
  - rewrite split_from_step. cbn [no_separator] in Hp.
    apply andb_true_iff in Hp as [Hcd Hrest].
    apply negb_true_iff in Hcd. rewrite Hcd.
    rewrite IH1 by done. by rewrite <- app_assoc.
Qed.

Lemma split_from_separator (p rest : jsstring) :
  ∀ cur,
    no_separator p = true →
    split_from cur (p ++ 44%N :: 32%N :: rest) = (cur ++ p) :: split_from [] rest.
Proof.
  induction p as [|c p IH]; intros cur Hp.
  - by rewrite app_nil_r.
  - cbn [app].
    destruct (p ++ 44%N :: 32%N :: rest) as [|d t] eqn:E; [by destruct p|].
    rewrite split_from_step.
    assert (Hcd : ((c =? 44) && (d =? 32))%N = false).
    { destruct p as [|e p'].
      - cbn in E. injection E as <- <-. by rewrite andb_false_r.
      - cbn in E. injection E as <- <-. cbn [no_separator] in Hp.
        apply andb_true_iff in Hp as [Hcd _]. by apply negb_true_iff in Hcd. }
    rewrite Hcd, IH, <- app_assoc; [done|].
    destruct p; cbn [no_separator] in Hp; [done|].
    by apply andb_true_iff in Hp as [_ ?].
Qed.

(** Splitting the join of separator-free parts gives the parts back. *)
Lemma split_join (parts : list jsstring) :
  parts ≠ [] →
  Forall (λ p, no_separator p = true) parts →
  split (join parts) = parts.
Proof.
  unfold split. induction parts as [|p parts IH]; [done|]. intros _ Hparts.
  apply Forall_cons in Hparts as [Hp Hparts].
  destruct parts as [|q parts].
  - by rewrite split_from_plain.
  - rewrite join_cons by done. rewrite split_from_separator by done.
    by rewrite IH.
Qed.

(** The last part of a join is the whole of it or follows a separator. *)
Lemma join_last_cut (parts : list jsstring) (p : jsstring) :
  last parts = Some p →
  join parts = p ∨ ∃ before, join parts = before ++ str ", " ++ p.
Proof.
  induction parts as [|q parts IH]; [done|]. intros Hl.
  destruct parts as [|r parts].
  - cbn in Hl. left. by simplify_eq.
  - rewrite last_cons_cons in Hl. rewrite join_cons by done. right.
    destruct (IH Hl) as [-> | [before ->]].
    + by exists q.
    + exists (q ++ str ", " ++ before). by rewrite <- !app_assoc.
Qed.

End StringFacts.

(** ** The stateful part of FlightMap *)

Module FlightMapFacts.
Import JSString JSMath GreatCircle Antimeridian FlightMapState.
Import AntimeridianFacts GreatCircleFacts.

Lemma drawn_app (cs1 cs2 : list call) : drawn (cs1 ++ cs2) = drawn cs1 ++ drawn cs2.
Proof. unfold drawn. apply omap_app. Qed.

Lemma drawn_polylines (segments : list (list Point)) :
  drawn (polyline_addTo <$> segments) = segments.
Proof.
  induction segments as [|s segments IH]; [done|].
  change (s :: drawn (polyline_addTo <$> segments) = s :: segments).
  by rewrite IH.
Qed.

Lemma count_app (kind : call → bool) (cs1 cs2 : list call) :
  count kind (cs1 ++ cs2) = count kind cs1 + count kind cs2.
Proof. induction cs1 as [|c cs1 IH]; [done|]. cbn. rewrite IH. lia. Qed.

Lemma count_fmap_none {A : Type} (kind : call → bool) (f : A → call) (l : list A) :
  (∀ x, kind (f x) = false) → count kind (f <$> l) = 0.
Proof.
  intros Hf. induction l as [|x l IH]; [done|].
  cbn. by rewrite Hf, IH.
Qed.

Section WithLeaflet.
Context (accepts : call → bool).

Local Abbreviation performs := (performs accepts).
Local Abbreviation addMarker := (addMarker accepts).
Local Abbreviation drawSegments := (drawSegments accepts).
Local Abbreviation drawFlightPath := (drawFlightPath accepts).
Local Abbreviation run := (run accepts).
Local Abbreviation reachable := (reachable accepts).

(** A marker with a NaN coordinate is refused, whatever else Leaflet
    accepts. *)
Lemma addMarker_invalid (lat lng : float) (type label : jsstring) (st : state) :
  validLatLng (mkPoint lat lng) = false → addMarker lat lng type label st = None.
Proof.
  intros Hp. unfold FlightMapState.addMarker, FlightMapState.performs.
  cbn [validCall m_position]. by rewrite Hp.
Qed.

(** What a call of [addMarker] that returns leaves behind. *)
Lemma addMarker_Some (lat lng : float) (type label : jsstring) (st st' : state) :
  addMarker lat lng type label st = Some st' →
  map st ≠ None ∧
  st' = mkState (map st)
          (markers st ++ [mkMarker (mkPoint lat lng) (createIcon type) label])
          (polyline st)
          (calls st ++ [marker_addTo (mkMarker (mkPoint lat lng) (createIcon type) label)]).
Proof.
  unfold FlightMapState.addMarker.
  destruct (FlightMapState.performs accepts _); [|discriminate].
  destruct (map st) as [c|]; [|discriminate].
  intros [= <-]. split; [discriminate|reflexivity].
Qed.

Lemma addMarker_live (lat lng : float) (type label : jsstring) (st : state)
    (containerId : jsstring) :
  map st = Some containerId →
  performs (marker_addTo (mkMarker (mkPoint lat lng) (createIcon type) label)) = true →
  addMarker lat lng type label st
  = Some (mkState (map st)
            (markers st ++ [mkMarker (mkPoint lat lng) (createIcon type) label])
            (polyline st)
            (calls st ++ [marker_addTo (mkMarker (mkPoint lat lng) (createIcon type) label)])).
Proof.
  intros Hmap Hm. unfold FlightMapState.addMarker. by rewrite Hm, Hmap.
Qed.

Lemma drawSegments_Some (segments : list (list Point)) :
  ∀ st st',
    drawSegments segments st = Some st' →
    st' = mkState (map st) (markers st) (polyline st)
            (calls st ++ (polyline_addTo <$> segments)).
Proof.
  induction segments as [|s segments IH]; intros st st';
    cbn [FlightMapState.drawSegments].
  - intros [= <-]. cbn [fmap list_fmap]. rewrite app_nil_r. by destruct st.
  - destruct (FlightMapState.performs accepts (polyline_addTo s)); [|discriminate].
    destruct (map st) as [c|]; [|discriminate].
    intros ->%IH. cbn [map markers polyline calls fmap list_fmap].
    by rewrite <- app_assoc.
Qed.

Lemma drawSegments_performs (segments : list (list Point)) :
  ∀ st c,
    map st = Some c →
    forallb (λ segment, performs (polyline_addTo segment)) segments = true →
    is_Some (drawSegments segments st).
Proof.
  induction segments as [|s segments IH]; intros st c Hmap Hall;
    cbn [FlightMapState.drawSegments]; [by eexists|].
  cbn [forallb] in Hall. apply andb_true_iff in Hall as [-> Hall].
  rewrite Hmap. by apply (IH _ c).
Qed.

(** What a call of [drawFlightPath] that returns leaves behind. *)
Lemma drawFlightPath_Some (M : lib) (departure arrival : Airport) (st st' : state) :
  drawFlightPath M departure arrival st = Some st' →
  let p := mkPoint (a_lat departure) (a_lng departure) in
  let q := mkPoint (a_lat arrival) (a_lng arrival) in
  map st ≠ None ∧
  st' = mkState (map st)
          (markers st ++
             [mkMarker p (createIcon (str "departure")) (label departure);
              mkMarker q (createIcon (str "arrival")) (label arrival)])
          (polyline st)
          (calls st ++
             [marker_addTo (mkMarker p (createIcon (str "departure")) (label departure));
              marker_addTo (mkMarker q (createIcon (str "arrival")) (label arrival))] ++
             (polyline_addTo <$> handleAntimeridian (generateArc M p q 100)) ++
             [map_fitBounds p q]).
Proof.
  unfold FlightMapState.drawFlightPath.
  generalize (handleAntimeridian
    (generateArc M (mkPoint (a_lat departure) (a_lng departure))
                   (mkPoint (a_lat arrival) (a_lng arrival)) 100)).
  intros segments.
  destruct (addMarker _ _ _ _ st) as [st1|] eqn:H1; [|discriminate].
  apply addMarker_Some in H1 as [Hmap ->]. cbn [mbind option_bind].
  destruct (addMarker _ _ _ _ _) as [st2|] eqn:H2; [|discriminate].
  apply addMarker_Some in H2 as [_ ->]. cbn [mbind option_bind].
  destruct (drawSegments segments _) as [st3|] eqn:H3; [|discriminate].
  apply drawSegments_Some in H3 as ->. cbn [mbind option_bind].
  destruct (FlightMapState.performs accepts _); [|discriminate].
  cbn [map markers polyline calls].
  destruct (map st) as [c|]; [|done].
  intros [= <-]. split; [discriminate|].
  rewrite <- !app_assoc. reflexivity.
Qed.

(** A call of [drawFlightPath] on a live map returns when Leaflet carries
    out each of its calls. *)
Lemma drawFlightPath_live (M : lib) (departure arrival : Airport) (st : state)
    (containerId : jsstring) :
  let p := mkPoint (a_lat departure) (a_lng departure) in
  let q := mkPoint (a_lat arrival) (a_lng arrival) in
  map st = Some containerId →
  performs (marker_addTo (mkMarker p (createIcon (str "departure")) (label departure)))
  = true →
  performs (marker_addTo (mkMarker q (createIcon (str "arrival")) (label arrival)))
  = true →
  forallb (λ segment, performs (polyline_addTo segment))
          (handleAntimeridian (generateArc M p q 100)) = true →
  performs (map_fitBounds p q) = true →
  is_Some (drawFlightPath M departure arrival st).
Proof.
  intros p q Hmap Hdep Harr Hlines Hbounds.
  unfold FlightMapState.drawFlightPath. fold p q.
  revert Hlines. generalize (handleAntimeridian (generateArc M p q 100)).
  intros segments Hlines.
  rewrite (addMarker_live _ _ _ _ st containerId Hmap Hdep). cbn [mbind option_bind].
  erewrite addMarker_live; [|exact Hmap|exact Harr]. cbn [mbind option_bind].
  lazymatch goal with
  | |- context [FlightMapState.drawSegments accepts segments ?s] =>
      destruct (drawSegments_performs segments s containerId Hmap Hlines)
        as [st3 H3]
  end.
  rewrite H3. cbn [mbind option_bind]. rewrite Hbounds.
  apply drawSegments_Some in H3 as ->. cbn [map]. rewrite Hmap. by eexists.
Qed.

(** [drawFlightPath] with a NaN coordinate throws. *)
Lemma drawFlightPath_invalid (M : lib) (departure arrival : Airport) (st : state) :
  validLatLng (mkPoint (a_lat departure) (a_lng departure)) = false →
  drawFlightPath M departure arrival st = None.
Proof.
  intros Hp. unfold FlightMapState.drawFlightPath.
  by rewrite (addMarker_invalid _ _ _ _ _ Hp).
Qed.

(** X3. On a live map, and when Leaflet carries out the calls for the two
    markers, the lines and the bounds, [drawFlightPath] draws the whole arc:
    the polylines it adds, concatenated in drawing order, are the 101 points
    of [generateArc(departure, arrival)], and each polyline is non-empty and
    free of longitude jumps above 180. *)
Theorem drawFlightPath_draws_arc (M : lib) (departure arrival : Airport)
    (st : state) (containerId : jsstring) :
  let p := mkPoint (a_lat departure) (a_lng departure) in
  let q := mkPoint (a_lat arrival) (a_lng arrival) in
  map st = Some containerId →
  performs (marker_addTo
    (mkMarker p (mkIcon (str "departure") (str "flight_takeoff"))
       (a_city departure ++ str " (" ++ a_code departure ++ str ")"))) = true →
  performs (marker_addTo
    (mkMarker q (mkIcon (str "arrival") (str "flight_land"))
       (a_city arrival ++ str " (" ++ a_code arrival ++ str ")"))) = true →
  forallb (λ segment, performs (polyline_addTo segment))
          (handleAntimeridian (generateArc M p q 100)) = true →
  performs (map_fitBounds p q) = true →
  ∃ (st' : state) (segments : list (list Point)),
    drawFlightPath M departure arrival st = Some st' ∧
    drawn (calls st') = drawn (calls st) ++ segments ∧
    concat segments = generateArc M p q 100 ∧
    length (concat segments) = 101 ∧
    Forall (λ s, s ≠ [] ∧ no_crossing s) segments.
Proof.
  intros p q Hmap Hdep Harr Hlines Hbounds.
  destruct (drawFlightPath_live M departure arrival st containerId
              Hmap Hdep Harr Hlines Hbounds) as [st' Hdraw].
  pose proof (drawFlightPath_Some M departure arrival st st' Hdraw) as [_ Hst'].
  fold p q in Hst'.
  assert (Hlen : length (generateArc M p q 100) = 101).
  { rewrite generateArc_map, length_map, length_seq. reflexivity. }
  clear Hlines. revert Hst' Hlen. generalize (generateArc M p q 100).
  intros arc Hst' Hlen.
  exists st', (handleAntimeridian arc). split; [exact Hdraw|].
  rewrite Hst'. cbn [calls]. split.
  { rewrite !drawn_app, drawn_polylines. cbn [drawn omap list_omap app].
    rewrite app_nil_r. reflexivity. }
  rewrite handleAntimeridian_runs, concat_runs. cbn [app].
  split; [reflexivity|]. split; [exact Hlen|].
  apply runs_segments.
  destruct arc as [|p0 ?]; cbn [take app];
    [intros [|?] ? ? ?; discriminate | apply no_crossing_singleton].
Qed.

Lemma invariant_run (M : lib) (m : method) (st st' : state) :
  invariant st → run M m st = Some st' → invariant st'.
Proof.
  intros (Hline & Hmarkers & Hremove & Hmaps) Hrun. unfold live in Hmaps.
  destruct m as [c|la lo ty lb|dep arr| |]; cbn [FlightMapState.run] in Hrun.
  - injection Hrun as <-. unfold invariant, init, live.
    cbn [polyline map markers calls].
    destruct (map st); rewrite !count_app;
      cbn [count is_polyline_remove is_L_map is_map_remove];
      split_and!; try done; lia.
  - apply addMarker_Some in Hrun as [Hmap ->].
    unfold invariant, live. cbn [polyline map markers calls].
    destruct (map st) as [c|]; [|done]. rewrite !count_app.
    cbn [count is_polyline_remove is_L_map is_map_remove].
    split_and!; try done; lia.
  - apply drawFlightPath_Some in Hrun as [Hmap Hst']. revert Hst'.
    generalize (handleAntimeridian
      (generateArc M (mkPoint (a_lat dep) (a_lng dep)) (mkPoint (a_lat arr) (a_lng arr)) 100)).
    intros segments ->.
    unfold invariant, live. cbn [polyline map markers calls].
    destruct (map st) as [c|]; [|done]. rewrite !count_app.
    cbn [count is_polyline_remove is_L_map is_map_remove].
    rewrite ?count_app, !(count_fmap_none _ polyline_addTo)
      by (intros; reflexivity).
    cbn [count is_polyline_remove is_L_map is_map_remove].
    split_and!; try done; lia.
  - injection Hrun as <-. unfold invariant, clear, live. rewrite Hline.
    cbn [polyline map markers calls].
    rewrite !count_app, !(count_fmap_none _ marker_remove) by (intros; reflexivity).
    split_and!; try done; lia.
  - injection Hrun as <-. unfold invariant, destroy, live.
    destruct (map st); cbn [polyline map markers calls]; rewrite ?count_app;
      cbn [count is_polyline_remove is_L_map is_map_remove];
      split_and!; try done; lia.
Qed.

Lemma reachable_invariant (M : lib) (st : state) : reachable M st → invariant st.
Proof.
  induction 1 as [|m st st' _ IH Hrun]; [by repeat split|].
  by eapply invariant_run.
Qed.

(** X5. The [polyline] field is never set: in every reachable state it is
    [null], and no call ever removes a polyline.  [clear()] therefore only
    removes markers; the lines drawn stay until the map itself is
    removed. *)
Theorem polyline_never_removed (M : lib) (st : state) :
  reachable M st →
  polyline st = None ∧
  count is_polyline_remove (calls st) = 0 ∧
  calls (clear st) = calls st ++ (marker_remove <$> markers st) ∧
  drawn (calls (clear st)) = drawn (calls st).
Proof.
  intros (Hline & _ & Hremove & _)%reachable_invariant.
  repeat split; [done..| |]; unfold clear; rewrite Hline; cbn [calls]; [done|].
  rewrite drawn_app. replace (drawn (marker_remove <$> markers st)) with (@nil (list Point)).
  - by rewrite app_nil_r.
  - induction (markers st); done.
Qed.

(** X6. The object never leaks a map: in every reachable state the maps
    created exceed the maps removed by one when [map] is set and by none
    when it is [null], and without a map no marker is tracked. *)
Theorem one_live_map (M : lib) (st : state) :
  reachable M st →
  count is_L_map (calls st) = count is_map_remove (calls st) + live st ∧
  (map st = None → markers st = []).
Proof. by intros (_ & ? & _ & ?)%reachable_invariant. Qed.

(** X7. [destroy] and [clear] are idempotent: a second call in a row changes
    nothing and issues no Leaflet call ([FlightModal] destroys the map both
    when it closes and when it opens). *)
Theorem teardown_idempotent (st : state) :
  destroy (destroy st) = destroy st ∧ clear (clear st) = clear st.
Proof.
  split.
  - unfold destroy. by destruct (map st).
  - unfold clear. destruct (polyline st); cbn [polyline markers calls map fmap list_fmap];
      by rewrite app_nil_r.
Qed.

(** X8. [init] followed by [drawFlightPath], as [FlightModal.open] calls
    them, cannot hit the null map: whatever the object held before, when
    Leaflet carries out the calls for the two markers, the lines and the
    bounds, it ends with the new map and exactly the two markers of this
    flight, departure first, each labelled with its city and, in
    parentheses, its code. *)
Theorem init_then_draw (M : lib) (containerId : jsstring)
    (departure arrival : Airport) (st : state) :
  let p := mkPoint (a_lat departure) (a_lng departure) in
  let q := mkPoint (a_lat arrival) (a_lng arrival) in
  let departureMarker :=
    mkMarker p (mkIcon (str "departure") (str "flight_takeoff"))
      (a_city departure ++ str " (" ++ a_code departure ++ str ")") in
  let arrivalMarker :=
    mkMarker q (mkIcon (str "arrival") (str "flight_land"))
      (a_city arrival ++ str " (" ++ a_code arrival ++ str ")") in
  performs (marker_addTo departureMarker) = true →
  performs (marker_addTo arrivalMarker) = true →
  forallb (λ segment, performs (polyline_addTo segment))
          (handleAntimeridian (generateArc M p q 100)) = true →
  performs (map_fitBounds p q) = true →
  ∃ st',
    drawFlightPath M departure arrival (init containerId st) = Some st' ∧
    map st' = Some containerId ∧
    polyline st' = None ∧
    markers st' = [departureMarker; arrivalMarker].
Proof.
  intros p q departureMarker arrivalMarker Hdep Harr Hlines Hbounds.
  destruct (drawFlightPath_live M departure arrival (init containerId st) containerId
              eq_refl Hdep Harr Hlines Hbounds) as [st' Hdraw].
  pose proof (drawFlightPath_Some M departure arrival _ st' Hdraw) as [_ Hst'].
  exists st'. split; [exact Hdraw|]. rewrite Hst'.
  cbn [map markers polyline init app]. split; [reflexivity|]. split; reflexivity.
Qed.

End WithLeaflet.

(** The model run with a Leaflet that refuses nothing but NaN coordinates:
    a marker at a NaN latitude throws on a live map. *)
Lemma addMarker_nan :
  addMarker Host.leaflet nan 135 (str "departure") (str "Tokyo (HND)")
    (init (str "flight-map") initial) = None.
Proof. reflexivity. Qed.

(** A flight drawn on a fresh map with the small Math library. *)
Lemma drawFlightPath_draws_arc_witness :
  let departure := mkAirport 35.5 139.75 (str "HND") (str "Tokyo") in
  let arrival := mkAirport 34 135 (str "KIX") (str "Osaka") in
  let st := init (str "flight-map") initial in
  map st = Some (str "flight-map") ∧
  performs Host.leaflet (marker_addTo
    (mkMarker (mkPoint 35.5 139.75) (mkIcon (str "departure") (str "flight_takeoff"))
       (str "Tokyo (HND)"))) = true ∧
  performs Host.leaflet (marker_addTo
    (mkMarker (mkPoint 34 135) (mkIcon (str "arrival") (str "flight_land"))
       (str "Osaka (KIX)"))) = true ∧
  forallb (λ segment, performs Host.leaflet (polyline_addTo segment))
    (handleAntimeridian
       (generateArc taylor (mkPoint 35.5 139.75) (mkPoint 34 135) 100)) = true ∧
  performs Host.leaflet (map_fitBounds (mkPoint 35.5 139.75) (mkPoint 34 135)) = true ∧
  ∃ (st' : state) (segments : list (list Point)),
    drawFlightPath Host.leaflet taylor departure arrival st = Some st' ∧
    drawn (calls st') = drawn (calls st) ++ segments ∧
    concat segments = generateArc taylor (mkPoint 35.5 139.75) (mkPoint 34 135) 100 ∧
    length (concat segments) = 101 ∧
    Forall (λ s, s ≠ [] ∧ no_crossing s) segments.
Proof.
  intros departure arrival st.
  assert (Hlines : forallb (λ segment, performs Host.leaflet (polyline_addTo segment))
    (handleAntimeridian
       (generateArc taylor (mkPoint 35.5 139.75) (mkPoint 34 135) 100)) = true)
    by (vm_compute; reflexivity).
  split; [reflexivity|]. split; [reflexivity|]. split; [reflexivity|].
  split; [exact Hlines|]. split; [reflexivity|].
  exact (drawFlightPath_draws_arc Host.leaflet taylor departure arrival st
           (str "flight-map") eq_refl eq_refl eq_refl Hlines eq_refl).
Defined.

Lemma init_then_draw_witness :
  let departure := mkAirport 35.5 139.75 (str "HND") (str "Tokyo") in
  let arrival := mkAirport 34 135 (str "KIX") (str "Osaka") in
  let departureMarker :=
    mkMarker (mkPoint 35.5 139.75) (mkIcon (str "departure") (str "flight_takeoff"))
      (str "Tokyo (HND)") in
  let arrivalMarker :=
    mkMarker (mkPoint 34 135) (mkIcon (str "arrival") (str "flight_land"))
      (str "Osaka (KIX)") in
  performs Host.leaflet (marker_addTo departureMarker) = true ∧
  performs Host.leaflet (marker_addTo arrivalMarker) = true ∧
  forallb (λ segment, performs Host.leaflet (polyline_addTo segment))
    (handleAntimeridian
       (generateArc taylor (mkPoint 35.5 139.75) (mkPoint 34 135) 100)) = true ∧
  performs Host.leaflet (map_fitBounds (mkPoint 35.5 139.75) (mkPoint 34 135)) = true ∧
  ∃ st',
    drawFlightPath Host.leaflet taylor departure arrival
      (init (str "flight-map") initial) = Some st' ∧
    map st' = Some (str "flight-map") ∧
    polyline st' = None ∧
    markers st' = [departureMarker; arrivalMarker].
Proof.
  intros departure arrival departureMarker arrivalMarker.
  assert (Hlines : forallb (λ segment, performs Host.leaflet (polyline_addTo segment))
    (handleAntimeridian
       (generateArc taylor (mkPoint 35.5 139.75) (mkPoint 34 135) 100)) = true)
    by (vm_compute; reflexivity).
  split; [reflexivity|]. split; [reflexivity|]. split; [exact Hlines|].
  split; [reflexivity|].
  exact (init_then_draw Host.leaflet taylor (str "flight-map") departure arrival initial
           eq_refl eq_refl Hlines eq_refl).
Defined.

(** The state after [init] and one [addMarker] is reachable. *)
Lemma reachable_marked (M : lib) :
  reachable Host.leaflet M
    (mkState (Some (str "flight-map"))
       [mkMarker (mkPoint 34 135) (createIcon (str "arrival")) (str "Osaka")] None
       [L_map (str "flight-map"); tileLayer_addTo;
        marker_addTo (mkMarker (mkPoint 34 135) (createIcon (str "arrival")) (str "Osaka"))]).
Proof.
  eapply (reachable_run Host.leaflet M
            (call_addMarker 34 135 (str "arrival") (str "Osaka"))
            (init (str "flight-map") initial)); [|reflexivity].
  eapply (reachable_run Host.leaflet M (call_init (str "flight-map")) initial);
    [|reflexivity].
  apply reachable_initial.
Qed.

Lemma polyline_never_removed_witness :
  let st :=
    mkState (Some (str "flight-map"))
      [mkMarker (mkPoint 34 135) (createIcon (str "arrival")) (str "Osaka")] None
      [L_map (str "flight-map"); tileLayer_addTo;
       marker_addTo (mkMarker (mkPoint 34 135) (createIcon (str "arrival")) (str "Osaka"))] in
  reachable Host.leaflet taylor st ∧
  polyline st = None ∧
  count is_polyline_remove (calls st) = 0 ∧
  calls (clear st) = calls st ++ (marker_remove <$> markers st) ∧
  drawn (calls (clear st)) = drawn (calls st).
Proof.
  intros st. split; [apply reachable_marked|].
  apply (polyline_never_removed Host.leaflet taylor st). apply reachable_marked.
Defined.

Lemma one_live_map_witness :
  let st :=
    mkState (Some (str "flight-map"))
      [mkMarker (mkPoint 34 135) (createIcon (str "arrival")) (str "Osaka")] None
      [L_map (str "flight-map"); tileLayer_addTo;
       marker_addTo (mkMarker (mkPoint 34 135) (createIcon (str "arrival")) (str "Osaka"))] in
  reachable Host.leaflet taylor st ∧
  count is_L_map (calls st) = count is_map_remove (calls st) + live st ∧
  (map st = None → markers st = []).
Proof.
  intros st. split; [apply reachable_marked|].
  apply (one_live_map Host.leaflet taylor st). apply reachable_marked.
Defined.

End FlightMapFacts.

(** ** AirportSearch *)

Module AirportSearchFacts.
Import JSString StringFacts AirportSearch.

Lemma extractCountry_last (s : jsstring) :
  s ≠ [] → last (split s) = Some (extractCountryFromDisplay (Some s)).
Proof.
  intros Hs. unfold extractCountryFromDisplay. destruct s as [|c s]; [done|].
  pose proof (split_from_nonempty (c :: s) []) as Hne. fold (split (c :: s)) in Hne.
  cbn zeta. destruct (split (c :: s)) as [|p parts] eqn:E; [done|].
  replace (0 <? length (p :: parts))%nat with true by done.
  rewrite last_lookup.
  replace (Init.Nat.pred (length (p :: parts))) with (length (p :: parts) - 1) by lia.
  destruct ((p :: parts) !! (length (p :: parts) - 1)) eqn:El; [done|].
  apply lookup_ge_None in El. cbn in El. lia.
Qed.

(** X9. The country extracted from a display name is the text after its
    last [", "]: it contains no separator, and it is the whole name or what
    follows a separator at the end of the name. *)
Theorem extractCountry_suffix (displayName : jsstring) :
  let country := extractCountryFromDisplay (Some displayName) in
  no_separator country = true ∧
  (displayName = country ∨ ∃ before, displayName = before ++ str ", " ++ country).
Proof.
  intros country. subst country.
  destruct displayName as [|c s]; [by split; [|left]|].
  pose proof (extractCountry_last (c :: s) ltac:(done)) as Hl.
  split.
  - pose proof (split_from_no_separator (c :: s) [] eq_refl) as Hall.
    rewrite Forall_forall in Hall. apply Hall; [by intros [? _]|].
    by apply last_Some_elem_of.
  - apply join_last_cut in Hl. unfold split in Hl. rewrite join_split_from in Hl.
    cbn [app] in Hl. destruct Hl as [Hl | [before Hl]]; [by left|].
    right. by exists before.
Qed.

(** X10. On a display name of the documented form
    "Airport Name, City, Region, Country" (parts joined by [", "], none of
    them containing it) the city is the second part and the country the
    last part. *)
Theorem extract_formatted (airport city : jsstring) (more : list jsstring) :
  Forall (λ p, no_separator p = true) (airport :: city :: more) →
  extractCityFromDisplay (Some (join (airport :: city :: more))) = city ∧
  last (city :: more)
  = Some (extractCountryFromDisplay (Some (join (airport :: city :: more)))).
Proof.
  intros Hparts.
  pose proof (split_join (airport :: city :: more) ltac:(done) Hparts) as Hsplit.
  assert (Hne : join (airport :: city :: more) ≠ []).
  { rewrite join_cons by done. by destruct airport. }
  split.
  - unfold extractCityFromDisplay.
    destruct (join (airport :: city :: more)) as [|c s] eqn:E; [done|].
    cbn zeta. by rewrite Hsplit.
  - rewrite <- extractCountry_last by done. rewrite Hsplit.
    by rewrite last_cons_cons.
Qed.

(** X11. A display name without any [", "] is returned whole, as city and as
    country. *)
Theorem extract_plain (displayName : jsstring) :
  no_separator displayName = true →
  extractCityFromDisplay (Some displayName) = displayName ∧
  extractCountryFromDisplay (Some displayName) = displayName.
Proof.
  intros Hs. unfold extractCityFromDisplay, extractCountryFromDisplay, split.
  destruct displayName as [|c s]; [done|].
  by rewrite split_from_plain.
Qed.

Section WithHost.
Context (toUpperCase : jsstring → jsstring) (parseFloat : jsstring → float).

Local Abbreviation normalize := (normalize toUpperCase).
Local Abbreviation searchAirport := (searchAirport toUpperCase parseFloat).
Local Abbreviation searches := (searches toUpperCase parseFloat).
Local Abbreviation searchBothAirports := (searchBothAirports toUpperCase parseFloat).
Local Abbreviation getCityNameForWikipedia := (getCityNameForWikipedia toUpperCase).
Local Abbreviation reachable := (reachable toUpperCase parseFloat).

(** A lookup whose request, if one is sent, is answered leaves the answer
    in the cache, unless the query cannot be encoded: then it returns
    [null] and has changed nothing. *)
Lemma searchAirport_answered (data : list NominatimResult) (code : jsstring)
    (st st' : state) (r : option AirportInfo) :
  code ≠ [] →
  searchAirport (Json data) code st = (r, st') →
  cache st' !! normalize code = Some r ∨
  (r = None ∧ cache st' !! normalize code = None ∧
   isWellFormed (query (normalize code)) = false).
Proof.
  intros Hcode. unfold AirportSearch.searchAirport.
  destruct code as [|c code]; [done|].
  destruct (cache st !! normalize (c :: code)) as [cached|] eqn:Hc.
  - intros [= <- <-]. by left.
  - destruct (isWellFormed (query (normalize (c :: code)))) eqn:Hq.
    + destruct data as [|result data]; intros [= <- <-]; left; cbn [cache];
        by rewrite lookup_insert_eq.
    + intros [= <- <-]. by right.
Qed.

Lemma searchAirport_hit (resp : response) (code : jsstring) (st : state)
    (r : option AirportInfo) :
  code ≠ [] →
  cache st !! normalize code = Some r →
  searchAirport resp code st = (r, st).
Proof.
  intros Hcode Hc. unfold AirportSearch.searchAirport.
  destruct code as [|c code]; [done|]. by rewrite Hc.
Qed.

Lemma searchAirport_unsendable (resp : response) (code : jsstring) (st : state) :
  code ≠ [] →
  cache st !! normalize code = None →
  isWellFormed (query (normalize code)) = false →
  searchAirport resp code st = (None, st).
Proof.
  intros Hcode Hc Hq. unfold AirportSearch.searchAirport.
  destruct code as [|c code]; [done|]. by rewrite Hc, Hq.
Qed.

(** A lookup neither drops nor changes an entry of the cache. *)
Lemma searchAirport_keeps (resp : response) (code : jsstring) (st : state)
    (key : jsstring) (r : option AirportInfo) :
  cache st !! key = Some r →
  cache (searchAirport resp code st).2 !! key = Some r.
Proof.
  intros Hkey. unfold AirportSearch.searchAirport.
  destruct code as [|c code]; [done|].
  destruct (cache st !! normalize (c :: code)) as [cached|] eqn:Hc; [done|].
  destruct (isWellFormed (query (normalize (c :: code)))); [|done].
  assert (Hne : normalize (c :: code) ≠ key) by (intros <-; congruence).
  destruct resp as [|[|result data]]; cbn [snd cache]; [done| |];
    by rewrite lookup_insert_ne.
Qed.

(** A code whose query cannot be encoded never enters the cache. *)
Lemma searchAirport_never_cached (resp : response) (code : jsstring) (st : state)
    (key : jsstring) :
  isWellFormed (query key) = false →
  cache st !! key = None →
  cache (searchAirport resp code st).2 !! key = None.
Proof.
  intros Hq Hkey. unfold AirportSearch.searchAirport.
  destruct code as [|c code]; [done|].
  destruct (cache st !! normalize (c :: code)) as [cached|] eqn:Hc; [done|].
  destruct (isWellFormed (query (normalize (c :: code)))) eqn:Hq'; [|done].
  assert (Hne : normalize (c :: code) ≠ key) by (intros <-; congruence).
  destruct resp as [|[|result data]]; cbn [snd cache]; [done| |];
    by rewrite lookup_insert_ne.
Qed.

Lemma searches_keeps (later : list (response * jsstring)) :
  ∀ (st : state) (key : jsstring) (r : option AirportInfo),
    cache st !! key = Some r → cache (searches later st) !! key = Some r.
Proof.
  induction later as [|[resp code] later IH]; intros st key r Hkey; [done|].
  apply IH. by apply searchAirport_keeps.
Qed.

Lemma searches_never_cached (later : list (response * jsstring)) :
  ∀ (st : state) (key : jsstring),
    isWellFormed (query key) = false →
    cache st !! key = None → cache (searches later st) !! key = None.
Proof.
  induction later as [|[resp code] later IH]; intros st key Hq Hkey; [done|].
  apply IH; [done|]. by apply searchAirport_never_cached.
Qed.

(** X12. Once a lookup has been answered (found or not), every later lookup
    of a code with the same normal form, after any number of lookups of any
    codes in between, returns the same answer and sends nothing, whatever
    the network would say; an airport that was not found is never asked
    for again. *)
Theorem searchAirport_repeat (data : list NominatimResult) (resp : response)
    (code code' : jsstring) (st st' : state) (r : option AirportInfo)
    (later : list (response * jsstring)) :
  code ≠ [] → code' ≠ [] → normalize code' = normalize code →
  searchAirport (Json data) code st = (r, st') →
  searchAirport resp code' (searches later st') = (r, searches later st').
Proof.
  intros Hcode Hcode' Hnorm Hsearch.
  destruct (searchAirport_answered data code st st' r Hcode Hsearch)
    as [Hin | (-> & Hout & Hq)].
  - apply searchAirport_hit; [done|]. rewrite Hnorm. by apply searches_keeps.
  - apply searchAirport_unsendable; [done|rewrite Hnorm..]; [|done].
    by apply searches_never_cached.
Qed.

(** X13. A failed request (network error, bad status, bad JSON) returns
    [null] and is not cached: the cache is unchanged and the next lookup of
    the code sends the request again.  A code whose query cannot be encoded
    also gives [null], with no request at all. *)
Theorem searchAirport_failure_retried (resp : response) (code : jsstring) (st : state) :
  code ≠ [] → cache st !! normalize code = None →
  let st' := (searchAirport Failed code st).2 in
  (searchAirport Failed code st).1 = None ∧
  cache st' = cache st ∧
  requests (searchAirport resp code st').2
  = requests st ++
      (if isWellFormed (query (normalize code))
       then [query (normalize code); query (normalize code)] else []).
Proof.
  intros Hcode Hc. unfold AirportSearch.searchAirport.
  destruct code as [|c code]; [done|]. rewrite Hc.
  destruct (isWellFormed (query (normalize (c :: code)))) eqn:Hq;
    cbn [fst snd cache requests]; rewrite Hc, ?Hq.
  - split; [done|]. split; [done|].
    destruct resp as [|[|result data]]; cbn [snd requests]; by rewrite <- app_assoc.
  - by rewrite app_nil_r.
Qed.

(** X14. When both codes of a flight have the same normal form and the first
    request is answered, [searchBothAirports] sends one request only and
    returns the same answer twice. *)
Theorem searchBothAirports_same (data : list NominatimResult) (resp2 : response)
    (departureCode arrivalCode : jsstring) (st : state) :
  departureCode ≠ [] → arrivalCode ≠ [] →
  normalize arrivalCode = normalize departureCode →
  let first := searchAirport (Json data) departureCode st in
  searchBothAirports (Json data) resp2 departureCode arrivalCode st
  = ((first.1, first.1), first.2).
Proof.
  intros Hd Ha Hnorm first. unfold AirportSearch.searchBothAirports.
  fold first. destruct first as [r st'] eqn:Hfirst.
  destruct (searchAirport_answered data departureCode st st' r Hd Hfirst)
    as [Hin | (-> & Hout & Hq)].
  - rewrite (searchAirport_hit resp2 arrivalCode st' r); [done..|].
    by rewrite Hnorm.
  - rewrite (searchAirport_unsendable resp2 arrivalCode st'); [done..| |];
      by rewrite Hnorm.
Qed.

Lemma reachable_searches (names : gmap jsstring LocalData)
    (later : list (response * jsstring)) :
  ∀ st, reachable names st → reachable names (searches later st).
Proof.
  induction later as [|[resp code] later IH]; intros st Hst; [done|].
  apply IH. by constructor.
Qed.

Lemma reachable_consistent (names : gmap jsstring LocalData) (st : state) :
  reachable names st → consistent names st.
Proof.
  induction 1 as [|resp code st _ [Hnames Hcache]]; [by split|].
  unfold AirportSearch.searchAirport.
  destruct code as [|c code]; [done|].
  destruct (cache st !! normalize (c :: code)) as [cached|] eqn:Hc; [done|].
  destruct (isWellFormed (query (normalize (c :: code)))); [|done].
  destruct resp as [|[|result data]]; cbn [snd]; split; cbn [cityNames cache]; try done.
  - intros key info ld. destruct (decide (key = normalize (c :: code))) as [->|Hne].
    + by rewrite lookup_insert_eq.
    + rewrite lookup_insert_ne by done. apply Hcache.
  - intros key info ld. destruct (decide (key = normalize (c :: code))) as [->|Hne].
    + rewrite lookup_insert_eq. intros [= <-] Hld Hcity.
      unfold airportInfo. cbn [info_city]. rewrite Hnames, Hld. cbn.
      by destruct (ld_city ld).
    + rewrite lookup_insert_ne by done. apply Hcache.
Qed.

Lemma searchAirport_some (resp : response) (code : jsstring) (st st' : state)
    (info : AirportInfo) :
  searchAirport resp code st = (Some info, st') →
  cache st' !! normalize code = Some (Some info).
Proof.
  unfold AirportSearch.searchAirport.
  destruct code as [|c code]; [done|].
  destruct (cache st !! normalize (c :: code)) as [cached|] eqn:Hc.
  - by intros [= -> <-].
  - destruct (isWellFormed (query (normalize (c :: code)))); [|done].
    destruct resp as [|[|result data]]; intros [= Hinfo Hst]; subst.
    cbn [cache]. by rewrite lookup_insert_eq.
Qed.

(** X15. With the city names loaded before any lookup, the city that
    [searchAirport] returned for a code (when it is not empty) is the name
    [getCityNameForWikipedia] gives for that code from then on, after any
    number of further lookups; the fallback place is not used. *)
Theorem getCityName_agrees (names : gmap jsstring LocalData) (resp : response)
    (code fallbackPlace : jsstring) (st st' : state) (info : AirportInfo)
    (later : list (response * jsstring)) :
  reachable names st →
  searchAirport resp code st = (Some info, st') →
  info_city info ≠ [] →
  getCityNameForWikipedia code fallbackPlace (searches later st') = info_city info.
Proof.
  intros Hreach Hsearch Hcity.
  pose proof (searchAirport_some resp code st st' info Hsearch) as Hin.
  apply (searches_keeps later) in Hin.
  assert (Hcons : consistent names (searches later st')).
  { apply reachable_consistent, reachable_searches.
    replace st' with (searchAirport resp code st).2 by (by rewrite Hsearch).
    by constructor. }
  destruct Hcons as [Hnames Hcache].
  unfold AirportSearch.getCityNameForWikipedia. rewrite Hnames.
  destruct (names !! normalize code) as [ld|] eqn:Hld; cbn [from_option].
  - destruct (ld_city ld) as [|a city] eqn:Hl.
    + rewrite Hin. destruct (info_city info); [by destruct Hcity|done].
    + symmetry. rewrite <- Hl. eapply Hcache; [done..|]. by rewrite Hl.
  - rewrite Hin. destruct (info_city info); [by destruct Hcity|done].
Qed.

End WithHost.

(** Runs with the stand-in host functions. *)
Lemma extract_formatted_witness :
  Forall (λ p, no_separator p = true)
    [str "Tokyo International Airport"; str "Ota"; str "Tokyo"; str "Japan"] ∧
  extractCityFromDisplay
    (Some (join [str "Tokyo International Airport"; str "Ota"; str "Tokyo"; str "Japan"]))
  = str "Ota" ∧
  last [str "Ota"; str "Tokyo"; str "Japan"]
  = Some (extractCountryFromDisplay
      (Some (join [str "Tokyo International Airport"; str "Ota"; str "Tokyo"; str "Japan"]))).
Proof.
  assert (H : Forall (λ p, no_separator p = true)
    [str "Tokyo International Airport"; str "Ota"; str "Tokyo"; str "Japan"])
    by (repeat constructor).
  split; [exact H|].
  exact (extract_formatted (str "Tokyo International Airport") (str "Ota")
           [str "Tokyo"; str "Japan"] H).
Defined.

Lemma extract_plain_witness :
  no_separator (str "Narita") = true ∧
  extractCityFromDisplay (Some (str "Narita")) = str "Narita" ∧
  extractCountryFromDisplay (Some (str "Narita")) = str "Narita".
Proof.
  split; [reflexivity|]. apply (extract_plain (str "Narita")). reflexivity.
Defined.

(** A lookup of Haneda, then lookups of two other airports, one not found
    and one failing, then Haneda again. *)
Lemma searchAirport_repeat_witness :
  let first := searchAirport Host.toUpperCase Host.parseFloat (Json [Host.haneda]) (str "hnd") initial in
  let later := [(Json [], str "kix"); (Failed, str "nrt")] in
  let st := searches Host.toUpperCase Host.parseFloat later first.2 in
  str "hnd" ≠ [] ∧ str " HND " ≠ [] ∧
  normalize Host.toUpperCase (str " HND ") = normalize Host.toUpperCase (str "hnd") ∧
  searchAirport Host.toUpperCase Host.parseFloat Failed (str " HND ") st = (first.1, st).
Proof.
  intros first later st. split; [discriminate|]. split; [discriminate|]. split; [reflexivity|].
  apply (searchAirport_repeat Host.toUpperCase Host.parseFloat [Host.haneda] Failed
           (str "hnd") (str " HND ") initial first.2 first.1 later);
    [discriminate | discriminate | reflexivity | reflexivity].
Defined.

Lemma searchAirport_failure_retried_witness :
  let st' := (searchAirport Host.toUpperCase Host.parseFloat Failed (str "hnd") initial).2 in
  str "hnd" ≠ [] ∧
  cache initial !! normalize Host.toUpperCase (str "hnd") = None ∧
  (searchAirport Host.toUpperCase Host.parseFloat Failed (str "hnd") initial).1 = None ∧
  cache st' = cache initial ∧
  requests (searchAirport Host.toUpperCase Host.parseFloat (Json [Host.haneda]) (str "hnd") st').2
  = requests initial ++ [str "HND airport"; str "HND airport"].
Proof.
  intros st'. split; [discriminate|]. split; [reflexivity|].
  apply (searchAirport_failure_retried Host.toUpperCase Host.parseFloat
           (Json [Host.haneda]) (str "hnd") initial); [discriminate|reflexivity].
Defined.

Lemma searchBothAirports_same_witness :
  let first := searchAirport Host.toUpperCase Host.parseFloat (Json [Host.haneda]) (str "HND") initial in
  str "HND" ≠ [] ∧ str "hnd" ≠ [] ∧
  normalize Host.toUpperCase (str "hnd") = normalize Host.toUpperCase (str "HND") ∧
  searchBothAirports Host.toUpperCase Host.parseFloat (Json [Host.haneda]) Failed
    (str "HND") (str "hnd") initial
  = ((first.1, first.1), first.2).
Proof.
  intros first. split; [discriminate|]. split; [discriminate|]. split; [reflexivity|].
  apply (searchBothAirports_same Host.toUpperCase Host.parseFloat [Host.haneda] Failed
           (str "HND") (str "hnd") initial); [discriminate|discriminate|reflexivity].
Defined.

(** The departure is looked up, then the arrival, as [FlightModal.open]
    does before it asks for the departure's city name. *)
Lemma getCityName_agrees_witness :
  let names : gmap jsstring LocalData :=
    {[ str "KIX" := mkLocalData (str "Osaka") (str "Osaka") (str "Japan") ]} in
  let st := mkState ∅ names [] in
  let found := searchAirport Host.toUpperCase Host.parseFloat (Json [Host.haneda]) (str "hnd") st in
  let later := [(Json [], str "kix")] in
  reachable Host.toUpperCase Host.parseFloat names st ∧
  (∃ info, found = (Some info, found.2) ∧ info_city info ≠ [] ∧
     getCityNameForWikipedia Host.toUpperCase (str "hnd") (str "Haneda")
       (searches Host.toUpperCase Host.parseFloat later found.2)
     = info_city info).
Proof.
  intros names st found later. split; [apply reachable_loaded|].
  exists (airportInfo Host.parseFloat st (str "HND") Host.haneda).
  split; [reflexivity|]. split; [discriminate|].
  apply (getCityName_agrees Host.toUpperCase Host.parseFloat names (Json [Host.haneda])
           (str "hnd") (str "Haneda") st found.2
           (airportInfo Host.parseFloat st (str "HND") Host.haneda) later);
    [apply reachable_loaded | reflexivity | discriminate].
Defined.

(** A code that ends in a lone surrogate: the query cannot be encoded,
    nothing is sent and nothing is cached. *)
Lemma searchAirport_lone_surrogate :
  searchAirport Host.toUpperCase Host.parseFloat (Json [Host.haneda])
    (str "HND" ++ [55357%N]) initial
  = (None, initial).
Proof. reflexivity. Qed.

End AirportSearchFacts.

(** ** WikipediaAPI *)

Module WikipediaFacts.
Import JSString StringFacts WikipediaAPI.

(** X16. The text shown for a summary never exceeds [maxLength + 3] code
    units. *)
Theorem truncate_length (text : jsstring) (maxLength : nat) :
  length (truncate text maxLength) ≤ maxLength + 3.
Proof.
  unfold truncate.
  destruct (bool_decide (text = [])) eqn:He; cbn [orb].
  - apply bool_decide_eq_true in He as ->. cbn. lia.
  - destruct (length text <=? maxLength)%nat eqn:Hl.
    + apply Nat.leb_le in Hl. lia.
    + rewrite length_app. pose proof (trim_length (take maxLength text)) as Ht.
      rewrite length_take in Ht. cbn. lia.
Qed.

(** X17. A text longer than [maxLength] becomes its first [maxLength] code
    units with the whitespace at both ends removed (and nothing else),
    followed by three dots. *)
Theorem truncate_long (text : jsstring) (maxLength : nat) :
  maxLength < length text →
  ∃ pre kept post,
    take maxLength text = pre ++ kept ++ post ∧
    Forall (λ c, isWhiteSpace c = true) pre ∧
    Forall (λ c, isWhiteSpace c = true) post ∧
    (∀ c, head kept = Some c → isWhiteSpace c = false) ∧
    (∀ c, last kept = Some c → isWhiteSpace c = false) ∧
    truncate text maxLength = kept ++ str "...".
Proof.
  intros Hlen. unfold truncate.
  destruct text as [|c text]; [cbn in Hlen; lia|].
  rewrite bool_decide_eq_false_2 by done. cbn [orb].
  replace (length (c :: text) <=? maxLength)%nat with false
    by (symmetry; apply Nat.leb_gt; done).
  destruct (trim_split (take maxLength (c :: text)))
    as (pre & post & Hs & Hpre & Hpost & Hh & Hl).
  by exists pre, (trim (take maxLength (c :: text))), post.
Qed.

(** X18. Truncation can lengthen: a text of [maxLength + 1] or
    [maxLength + 2] code units whose first and [maxLength]-th code units
    are not whitespace comes back longer than it was. *)
Theorem truncate_lengthens (text : jsstring) (maxLength : nat) (a b : N) :
  maxLength < length text < maxLength + 3 →
  text !! 0 = Some a → isWhiteSpace a = false →
  text !! (maxLength - 1) = Some b → isWhiteSpace b = false →
  length text < length (truncate text maxLength).
Proof.
  intros [Hlo Hhi] Ha Hwa Hb Hwb. unfold truncate.
  destruct text as [|c text]; [done|].
  rewrite bool_decide_eq_false_2 by done. cbn [orb].
  replace (length (c :: text) <=? maxLength)%nat with false
    by (symmetry; apply Nat.leb_gt; done).
  destruct maxLength as [|n].
  { cbn in Hhi. cbn in Hlo. rewrite length_app. cbn. lia. }
  rewrite trim_id.
  - rewrite length_app, length_take. cbn [length str] in *. cbn. lia.
  - intros d Hd. cbn in Hd, Ha. by simplify_eq.
  - intros d Hd. rewrite last_lookup in Hd.
    rewrite length_take in Hd.
    replace (Init.Nat.pred (S n `min` length (c :: text))) with (S n - 1) in Hd by lia.
    rewrite lookup_take_lt in Hd by lia. by simplify_eq.
Qed.





Lemma truncate_long_witness :
  8 < length (str "Tokyo is the capital of Japan") ∧
  ∃ pre kept post,
    take 8 (str "Tokyo is the capital of Japan") = pre ++ kept ++ post ∧
    Forall (λ c, isWhiteSpace c = true) pre ∧
    Forall (λ c, isWhiteSpace c = true) post ∧
    (∀ c, head kept = Some c → isWhiteSpace c = false) ∧
    (∀ c, last kept = Some c → isWhiteSpace c = false) ∧
    truncate (str "Tokyo is the capital of Japan") 8 = kept ++ str "...".
Proof.
  assert (H : 8 < length (str "Tokyo is the capital of Japan")) by (cbn; lia).
  split; [exact H|].
  exact (truncate_long (str "Tokyo is the capital of Japan") 8 H).
Defined.

Lemma truncate_lengthens_witness :
  5 < length (str "abcdef") < 5 + 3 ∧
  str "abcdef" !! 0 = Some 97%N ∧ isWhiteSpace 97 = false ∧
  str "abcdef" !! (5 - 1) = Some 101%N ∧ isWhiteSpace 101 = false ∧
  length (str "abcdef") < length (truncate (str "abcdef") 5).
Proof.
  assert (H : 5 < length (str "abcdef") < 5 + 3) by (cbn; lia).
  split; [exact H|]. do 4 (split; [reflexivity|]).
  exact (truncate_lengthens (str "abcdef") 5 97 101 H eq_refl eq_refl eq_refl eq_refl).
Defined.



(** A city name that is a lone surrogate: nothing is sent. *)
Lemma fetchCitySummary_lone_surrogate :
  fetchCitySummary (Json (str "a city")) [56832%N] initial = (None, initial).
Proof. reflexivity. Qed.

End WikipediaFacts.

(** ** The date selects *)

Module AppFacts.
Import JSString App.

Lemma digits_inj (u v : Decimal.uint) : digits u = digits v → u = v.
Proof.
  revert v. induction u; intros []; cbn; intros H; try done; simplify_eq; f_equal; auto.
Qed.

Lemma toString_inj (m n : nat) : toString m = toString n → m = n.
Proof.
  intros H%digits_inj.
  rewrite <- (Unsigned.of_to m), <- (Unsigned.of_to n). by rewrite H.
Qed.

Lemma dateValue_length :
  Forall (λ day, length (dateValue day) = 2) (seq 1 31).
Proof. apply (bool_decide_unpack _). by vm_compute. Qed.

Lemma dateValue_inj :
  Forall (λ day, Forall (λ day', dateValue day = dateValue day' → day = day') (seq 1 31))
         (seq 1 31).
Proof. apply (bool_decide_unpack _). by vm_compute. Qed.

Example birthday_examples :
  birthday 1 11 = str "111" ∧ birthday 11 1 = str "1101" ∧ birthday 12 31 = str "1231".
Proof. by vm_compute. Qed.

(** X21. Two different dates of the selects never share a database key:
    [birthday] is injective on months 1..12 and days 1..31. *)
Theorem birthday_injective (month day month' day' : nat) :
  1 ≤ day ≤ 31 → 1 ≤ day' ≤ 31 →
  birthday month day = birthday month' day' →
  month = month' ∧ day = day'.
Proof.
  intros Hd Hd' Hkey.
  assert (Hin : day ∈ seq 1 31) by (apply elem_of_seq; lia).
  assert (Hin' : day' ∈ seq 1 31) by (apply elem_of_seq; lia).
  pose proof (proj1 (Forall_forall _ _) dateValue_length) as Hlen.
  pose proof (proj1 (Forall_forall _ _) dateValue_inj day Hin) as Hinj.
  rewrite Forall_forall in Hinj.
  unfold birthday in Hkey.
  apply app_inj_2 in Hkey as [Hm Hday]; [|by rewrite !Hlen].
  split; [by apply toString_inj | by apply Hinj].
Qed.

Lemma birthday_injective_witness :
  1 ≤ 11 ≤ 31 ∧ 1 ≤ 1 ≤ 31 ∧
  (birthday 1 11 = birthday 1 11 → 1 = 1 ∧ 11 = 11) ∧
  birthday 1 11 ≠ birthday 11 1.
Proof.
  split; [lia|]. split; [lia|]. split.
  - apply (birthday_injective 1 11 1 11); lia.
  - intros H. apply (birthday_injective 1 11 11 1) in H; lia.
Defined.

End AppFacts.
